(** * Portfolio script: rate limiters, active-section tracker, field validator

  A shallow embedding of [src/script/script.js].

  - JavaScript strings are sequences of UTF-16 code units ([list N]).
  - Pixel offsets and clock readings are integers ([Z]).
  - DOM state the script reads and writes is an explicit record that the
    handlers thread through a small state-and-exception monad.
  - [setTimeout]/[clearTimeout] are modelled by the single pending timer
    that each wrapper's [timeoutId] variable can refer to. *)

From Stdlib Require Import ZArith NArith List Bool Lia String Ascii.
Import ListNotations.

Set Implicit Arguments.

(* ================================================================== *)
(** ** JavaScript strings *)

Module JsString.

Definition code_unit := N.
Definition t := list code_unit.

(** An ASCII/Latin-1 literal as a sequence of code units. *)
Fixpoint lit (s : string) : t :=
  match s with
  | EmptyString => []
  | String c s' => N_of_ascii c :: lit s'
  end.

Definition eqb (a b : t) : bool :=
  if list_eq_dec N.eq_dec a b then true else false.

Definition opt_eqb (a b : option t) : bool :=
  match a, b with
  | Some x, Some y => eqb x y
  | None, None => true
  | _, _ => false
  end.

(** ECMAScript WhiteSpace and LineTerminator code points; this is both
    what [String.prototype.trim] strips and what [\s] matches. *)
Definition is_space (c : code_unit) : bool :=
  ((c =? 9) || (c =? 10) || (c =? 11) || (c =? 12) || (c =? 13)
   || (c =? 32) || (c =? 160) || (c =? 5760)
   || ((8192 <=? c) && (c <=? 8202))
   || (c =? 8232) || (c =? 8233) || (c =? 8239) || (c =? 8287)
   || (c =? 12288) || (c =? 65279))%N.

Fixpoint trimStart (s : t) : t :=
  match s with
  | [] => []
  | c :: s' => if is_space c then trimStart s' else s
  end.

Definition trimEnd (s : t) : t := rev (trimStart (rev s)).

Definition trim (s : t) : t := trimEnd (trimStart s).

(** [s.substring(1)] *)
Definition substring1 (s : t) : t := tl s.

(** JavaScript truthiness of a string: non-empty. *)
Definition truthy (s : t) : bool :=
  match s with [] => false | _ => true end.

End JsString.

Definition jsstring : Type := JsString.t.

(* ================================================================== *)
(** ** Regular expressions (whole-string test, as with [^...$]) *)

Module Regex.

Inductive regex : Type :=
| Void : regex
| Eps : regex
| Class : (N -> bool) -> regex
| Cat : regex -> regex -> regex
| Alt : regex -> regex -> regex
| Star : regex -> regex.

Definition Plus (r : regex) : regex := Cat r (Star r).
Definition Chr (c : N) : regex := Class (N.eqb c).

Fixpoint nullable (r : regex) : bool :=
  match r with
  | Void => false
  | Eps => true
  | Class _ => false
  | Cat a b => nullable a && nullable b
  | Alt a b => nullable a || nullable b
  | Star _ => true
  end.

Fixpoint deriv (c : N) (r : regex) : regex :=
  match r with
  | Void => Void
  | Eps => Void
  | Class p => if p c then Eps else Void
  | Cat a b =>
      if nullable a then Alt (Cat (deriv c a) b) (deriv c b)
      else Cat (deriv c a) b
  | Alt a b => Alt (deriv c a) (deriv c b)
  | Star a => Cat (deriv c a) (Star a)
  end.

(** [r.test(s)] for an anchored pattern. *)
Fixpoint test (r : regex) (s : list N) : bool :=
  match s with
  | [] => nullable r
  | c :: s' => test (deriv c r) s'
  end.

(** The language of a pattern. *)
Inductive lang : regex -> list N -> Prop :=
| L_eps : lang Eps []
| L_class p c : p c = true -> lang (Class p) [c]
| L_cat a b s1 s2 : lang a s1 -> lang b s2 -> lang (Cat a b) (s1 ++ s2)
| L_alt_l a b s : lang a s -> lang (Alt a b) s
| L_alt_r a b s : lang b s -> lang (Alt a b) s
| L_star_nil a : lang (Star a) []
| L_star_cons a c s1 s2 :
    lang a (c :: s1) -> lang (Star a) s2 -> lang (Star a) (c :: s1 ++ s2).

End Regex.

(* ================================================================== *)
(** ** Field validator ([validateField], [showFieldError]) *)

Module Validator.

(** The part of an [<input>]/[<textarea>] element and of its parent node
    that the validator reads and writes.  Each field sits in a parent of
    its own, so the [.error-message] found through [field.parentNode]
    belongs to this field. *)
Record Field := {
  type : string;                  (* field.type *)
  value : jsstring;               (* field.value *)
  required : bool;                (* field.hasAttribute('required') *)
  errorClass : bool;              (* field.classList.contains('error') *)
  errorMessage : option string    (* text of the [.error-message] child of
                                     field.parentNode, if there is one *)
}.

Definition set_value (v : jsstring) (f : Field) : Field :=
  {| type := type f; value := v; required := required f;
     errorClass := errorClass f; errorMessage := errorMessage f |}.

(** [const emailRegex = /^[^\s@]+@[^\s@]+\.[^\s@]+$/] *)
Definition notSpaceAt (c : N) : bool :=
  negb (JsString.is_space c) && negb (c =? 64)%N.

Definition emailRegex : Regex.regex :=
  Regex.Cat (Regex.Plus (Regex.Class notSpaceAt))
    (Regex.Cat (Regex.Chr 64)
       (Regex.Cat (Regex.Plus (Regex.Class notSpaceAt))
          (Regex.Cat (Regex.Chr 46)
             (Regex.Plus (Regex.Class notSpaceAt))))).

Definition msg_email : string := "Por favor, insira um e-mail válido".
Definition msg_text : string := "Este campo deve ter pelo menos 2 caracteres".
Definition msg_required : string := "Este campo é obrigatório".

(** Modelled from the spec: [clearFieldError] is called by [validateField]
    and by the [input] listener, but its body lies past the end of the
    source file.  The spec says of it: "On input: any state -> Untouched
    (clears previously shown error)" and "on Valid/Untouched: remove any such
    display" (the message adjacent to the field and the visual error mark). *)
Definition clearFieldError (f : Field) : Field :=
  {| type := type f; value := value f; required := required f;
     errorClass := false; errorMessage := None |}.

(** [showFieldError(field, message)]: add the [error] class, drop an
    existing [.error-message] and append a fresh one carrying [message].
    The style sheet it then injects does not touch the field. *)
Definition showFieldError (f : Field) (message : string) : Field :=
  {| type := type f; value := value f; required := required f;
     errorClass := true; errorMessage := Some message |}.

(** The [switch (field.type)] of [validateField]: the pair
    [(isValid, errorMessage)] it leaves in the two local variables. *)
Definition rule (ty : string) (req : bool) (value : jsstring) : bool * string :=
  if String.eqb ty "email" then
    if JsString.truthy value && negb (Regex.test emailRegex value)
    then (false, msg_email) else (true, ""%string)
  else if String.eqb ty "text" then
    if req && (List.length value <? 2)%nat
    then (false, msg_text) else (true, ""%string)
  else
    if req && negb (JsString.truthy value)
    then (false, msg_required) else (true, ""%string).

(** [validateField(field)]: the returned [isValid] and the field after. *)
Definition validateField (field : Field) : bool * Field :=
  let value := JsString.trim (value field) in
  let field1 := clearFieldError field in
  let '(isValid, errorMessage) := rule (type field) (required field) value in
  if negb isValid
  then (isValid, showFieldError field1 errorMessage)
  else (isValid, field1).

(** The listeners installed by [setupFormValidation]. *)
Definition on_blur (f : Field) : Field := snd (validateField f).

(** The browser stores the typed text in [field.value] before it
    dispatches [input]. *)
Definition on_input (typed : jsstring) (f : Field) : Field :=
  clearFieldError (set_value typed f).

(** An error is displayed at the field: it carries the [error] class and
    an [.error-message] element sits next to it. *)
Definition shows_error (f : Field) : Prop :=
  errorClass f = true /\ exists m, errorMessage f = Some m.

(** Neither the class nor a message element is there. *)
Definition shows_no_error (f : Field) : Prop :=
  errorClass f = false /\ errorMessage f = None.

(** The strings [emailRegex] accepts, read off the pattern: a local part,
    an "@" (64), a middle part, a "." (46) and a last part; the three
    parts are non-empty and hold neither whitespace nor "@". *)
Definition email_shaped (s : jsstring) : Prop :=
  exists l d t : list N,
    s = l ++ 64%N :: d ++ 46%N :: t /\
    l <> [] /\ d <> [] /\ t <> [] /\
    forallb notSpaceAt l = true /\
    forallb notSpaceAt d = true /\
    forallb notSpaceAt t = true.

(** A blank field of a given type. *)
Definition input (ty : string) (req : bool) (v : jsstring) : Field :=
  {| type := ty; value := v; required := req;
     errorClass := false; errorMessage := None |}.

End Validator.

(* ================================================================== *)
(** ** Active-section tracker ([handleScroll] and its callees) *)

Module Tracker.

(** [CONFIG.navOffset] *)
Definition navOffset : Z := 80.

(** A [<section>] element as the tracker reads it. *)
Record PageSection := {
  offsetTop : Z;
  offsetHeight : Z;
  id : option jsstring          (* getAttribute('id'); null when absent *)
}.

(** A [.nav-link] element. *)
Record NavLink := {
  href : option jsstring;       (* getAttribute('href'); null when absent *)
  active : bool                 (* classList.contains('active') *)
}.

(** The window, the cached [elements] and the [PortfolioApp] instance. *)
Record World := {
  scrollY : Z;                       (* window.scrollY *)
  nav : option string;               (* elements.nav: [None] when the page has
                                        no #nav, else its style.background *)
  navLinks : list NavLink;           (* elements.navLinks *)
  sections : list PageSection;       (* elements.sections *)
  currentSection : option jsstring   (* this.currentSection *)
}.

Definition set_currentSection (c : option jsstring) (w : World) : World :=
  {| scrollY := scrollY w; nav := nav w; navLinks := navLinks w;
     sections := sections w; currentSection := c |}.

Definition set_navLinks (ls : list NavLink) (w : World) : World :=
  {| scrollY := scrollY w; nav := nav w; navLinks := ls;
     sections := sections w; currentSection := currentSection w |}.

Definition set_nav (n : option string) (w : World) : World :=
  {| scrollY := scrollY w; nav := n; navLinks := navLinks w;
     sections := sections w; currentSection := currentSection w |}.

(** What the browser changes between two scroll events: the scroll offset
    and the layout of the sections. *)
Definition relayout (y : Z) (secs : list PageSection) (w : World) : World :=
  {| scrollY := y; nav := nav w; navLinks := navLinks w;
     sections := secs; currentSection := currentSection w |}.

(** *** State and exceptions *)

Inductive exn := TypeError.

Inductive outcome (A : Type) :=
| Return (a : A)
| Throw (e : exn).
Arguments Return {A} a.
Arguments Throw {A} e.

(** A method body: it may throw, and the mutations made so far persist. *)
Definition M (A : Type) : Type := World -> outcome A * World.

Definition ret {A} (a : A) : M A := fun w => (Return a, w).
Definition throw {A} (e : exn) : M A := fun w => (Throw e, w).
Definition bind {A B} (m : M A) (k : A -> M B) : M B :=
  fun w => match m w with
           | (Return a, w') => k a w'
           | (Throw e, w') => (Throw e, w')
           end.
Definition get : M World := fun w => (Return w, w).
Definition modify (f : World -> World) : M unit := fun w => (Return tt, f w).

Notation "x <- m ;; k" := (bind m (fun x => k))
  (at level 61, m at next level, right associativity).
Notation "m ;;; k" := (bind m (fun _ => k))
  (at level 61, right associativity).

(** [list.forEach(f)] *)
Fixpoint forEach {A} (f : A -> M unit) (l : list A) : M unit :=
  match l with
  | [] => ret tt
  | x :: l' => f x ;;; forEach f l'
  end.

(** [href === activeId] for a string [href]: never equal to [null]. *)
Definition str_is (s : jsstring) (o : option jsstring) : bool :=
  match o with
  | Some a => JsString.eqb s a
  | None => false
  end.

(** The body of the [forEach] in [updateNavLinks], run over the links
    from the first to the last.  [link.getAttribute('href').substring(1)]
    throws on a link without [href], and the links before it stay
    toggled. *)
Fixpoint toggleLinks (activeId : option jsstring) (links : list NavLink)
  : outcome unit * list NavLink :=
  match links with
  | [] => (Return tt, [])
  | link :: rest =>
      match href link with
      | None => (Throw TypeError, links)
      | Some h =>
          let link' := {| href := Some h;
                          active := str_is (JsString.substring1 h) activeId |} in
          let (r, rest') := toggleLinks activeId rest in
          (r, link' :: rest')
      end
  end.

Definition updateNavLinks (activeId : option jsstring) : M unit :=
  fun w => let (r, ls) := toggleLinks activeId (navLinks w) in
           (r, set_navLinks ls w).

(** [scrollPosition >= sectionTop && scrollPosition < sectionTop + sectionHeight] *)
Definition in_range (scrollPosition : Z) (s : PageSection) : bool :=
  (offsetTop s <=? scrollPosition)%Z
  && (scrollPosition <? offsetTop s + offsetHeight s)%Z.

(** The body of the [forEach] in [updateActiveNavigation]. *)
Definition visitSection (scrollPosition : Z) (section : PageSection) : M unit :=
  let sectionId := id section in
  if in_range scrollPosition section then
    w <- get ;;
    if negb (JsString.opt_eqb (currentSection w) sectionId) then
      modify (set_currentSection sectionId) ;;;
      updateNavLinks sectionId
    else ret tt
  else ret tt.

Definition updateActiveNavigation : M unit :=
  w <- get ;;
  let scrollPosition := (scrollY w + navOffset)%Z in
  forEach (visitSection scrollPosition) (sections w).

Definition updateNavbarBackground : M unit :=
  w <- get ;;
  let scrolled := (50 <? scrollY w)%Z in
  match nav w with
  | None => throw TypeError
  | Some _ =>
      modify (set_nav (Some (if scrolled
                             then "rgba(11, 11, 12, 0.95)"%string
                             else "rgba(11, 11, 12, 0.9)"%string)))
  end.

Definition handleScroll : M unit :=
  updateActiveNavigation ;;;
  updateNavbarBackground.

(** The state left by a method. *)
Definition after {A} (m : M A) (w : World) : World := snd (m w).

(** The constructor sets [this.currentSection = '']; the page supplies
    everything else. *)
Definition fresh (w : World) : Prop := currentSection w = Some [].

(** Worlds the page can be in: a fresh one, and any reached from it by
    scrolling, relayout and runs of the scroll handler. *)
Inductive reachable : World -> Prop :=
| reach_fresh w : fresh w -> reachable w
| reach_relayout w y secs : reachable w -> reachable (relayout y secs w)
| reach_scroll w : reachable w -> reachable (after handleScroll w).

(** *** Vocabulary of the claims *)

Definition fragment (l : NavLink) : option jsstring :=
  option_map JsString.substring1 (href l).

Definition names (ident : jsstring) (l : NavLink) : bool :=
  JsString.opt_eqb (fragment l) (Some ident).

(** The sections whose range contains a position, in document order. *)
Definition containing (p : Z) (w : World) : list PageSection :=
  filter (in_range p) (sections w).

(** Every link carries an [href]. *)
Definition links_have_href (w : World) : Prop :=
  Forall (fun l => href l <> None) (navLinks w).

(** Every section has a (non-empty) id, and exactly one link names it. *)
Definition sections_linked (w : World) : Prop :=
  Forall (fun s => exists ident, id s = Some ident /\ ident <> [] /\
                   List.length (filter (names ident) (navLinks w)) = 1%nat)
         (sections w).

(** Exactly one link is active and it names [ident]. *)
Definition sole_active (ident : jsstring) (w : World) : Prop :=
  List.length (filter active (navLinks w)) = 1%nat /\
  forall l, In l (navLinks w) -> active l = true -> fragment l = Some ident.

(** The active flags say exactly which links name [c]. *)
Definition links_reflect (c : option jsstring) (w : World) : Prop :=
  Forall (fun l => exists h, href l = Some h /\
                   active l = str_is (JsString.substring1 h) c)
         (navLinks w).

(** What holds of every world the script can be in: nothing has been
    selected yet, or the flags reflect [currentSection]. *)
Definition coherent (w : World) : Prop :=
  currentSection w = Some [] \/ links_reflect (currentSection w) w.

(** A link after [classList.toggle('active', href === activeId)]. *)
Definition retoggled (activeId : option jsstring) (l : NavLink) : NavLink :=
  {| href := href l;
     active := match href l with
               | Some h => str_is (JsString.substring1 h) activeId
               | None => active l
               end |}.

(** What visiting a section whose range contains the position does when
    no link lacks its [href]. *)
Definition select (sectionId : option jsstring) (w : World) : World :=
  if JsString.opt_eqb (currentSection w) sectionId then w
  else set_navLinks (map (retoggled sectionId) (navLinks w))
         (set_currentSection sectionId w).

Definition select_all (ms : list PageSection) (w : World) : World :=
  fold_left (fun w s => select (id s) w) ms w.

(** Worlds used in the examples. *)
Definition link (h : string) (a : bool) : NavLink :=
  {| href := Some (JsString.lit h); active := a |}.

Definition section_at (top height : Z) (i : string) : PageSection :=
  {| offsetTop := top; offsetHeight := height; id := Some (JsString.lit i) |}.

Definition page (y : Z) (n : option string) (ls : list NavLink)
  (secs : list PageSection) : World :=
  {| scrollY := y; nav := n; navLinks := ls; sections := secs;
     currentSection := Some [] |}.

(** Two adjacent sections "a" = [0,100) and "b" = [100,200), freshly
    loaded and scrolled to offset 50. *)
Definition adjacent_at_50 : World :=
  page 50 (Some ""%string)
    [link "#a" false; link "#b" false]
    [section_at 0 100 "a"; section_at 100 100 "b"].

(** Two overlapping sections "a" = [0,200) and "b" = [100,300), freshly
    loaded and scrolled to offset 70, that is position 150. *)
Definition overlapping_at_70 : World :=
  page 70 (Some ""%string)
    [link "#a" false; link "#b" false]
    [section_at 0 200 "a"; section_at 100 200 "b"].

(** A page without a [#nav] element, scrolled to 10. *)
Definition no_nav_at_10 : World :=
  page 10 None [link "#a" false] [section_at 0 100 "a"].

(** A page whose second link has no [href], scrolled into section "a". *)
Definition bare_link_at_10 : World :=
  page 10 (Some ""%string)
    [link "#a" false; {| href := None; active := false |}]
    [section_at 0 100 "a"].

End Tracker.

(* ================================================================== *)
(** ** Rate limiters ([throttle], [debounce]) *)

Module Timers.

Section Wrappers.

(** The argument list a wrapper is called with and hands to [func]. *)
Variable Args : Type.

(** [delay] of [throttle(func, delay)] / [debounce(func, delay)]. *)
Variable delay : Z.

(** One invocation of [func]: the clock reading and the arguments. *)
Definition invocation : Type := Z * Args.

(** A timer that is still pending: when it is due and the arguments its
    callback closes over.  Each wrapper calls [clearTimeout(timeoutId)]
    before every [setTimeout], so at most one of its timers is pending
    and [timeoutId] refers to it. *)
Record timer := {
  due : Z;
  captured : Args
}.

(** [setTimeout(cb, ms)] at clock reading [now]; a negative [ms] counts
    as zero. *)
Definition setTimeout (now ms : Z) (args : Args) : option timer :=
  Some {| due := now + Z.max 0 ms; captured := args |}.

(** *** throttle *)

Record throttle_state := {
  t_timeoutId : option timer;
  lastExecTime : Z
}.

Definition throttle_init : throttle_state :=
  {| t_timeoutId := None; lastExecTime := 0 |}.

(** The function returned by [throttle], called when [Date.now()] reads
    [currentTime]; the invocations of [func] it makes itself. *)
Definition throttled (currentTime : Z) (args : Args) (st : throttle_state)
  : throttle_state * list invocation :=
  if (delay <? currentTime - lastExecTime st)%Z then
    ({| t_timeoutId := t_timeoutId st; lastExecTime := currentTime |},
     [(currentTime, args)])
  else
    ({| t_timeoutId :=
          setTimeout currentTime (delay - (currentTime - lastExecTime st)) args;
        lastExecTime := lastExecTime st |},
     []).

(** The timer callback of [throttle], run when [Date.now()] reads [now]. *)
Definition throttle_timeout (now : Z) (st : throttle_state)
  : throttle_state * list invocation :=
  match t_timeoutId st with
  | Some tm => ({| t_timeoutId := None; lastExecTime := now |},
                [(now, captured tm)])
  | None => (st, [])
  end.

(** *** debounce *)

Record debounce_state := {
  d_timeoutId : option timer
}.

Definition debounce_init : debounce_state := {| d_timeoutId := None |}.

(** The function returned by [debounce]. *)
Definition debounced (now : Z) (args : Args) (st : debounce_state)
  : debounce_state * list invocation :=
  ({| d_timeoutId := setTimeout now delay args |}, []).

(** The timer callback of [debounce]. *)
Definition debounce_timeout (now : Z) (st : debounce_state)
  : debounce_state * list invocation :=
  match d_timeoutId st with
  | Some tm => ({| d_timeoutId := None |}, [(now, captured tm)])
  | None => (st, [])
  end.

(** *** A punctual event loop

    The wrapper is called at the given clock readings; a pending timer
    runs exactly when it is due, and before a call made at that same
    reading.  After the last call the loop runs whatever is pending. *)

Section EventLoop.

Variable St : Type.
Variable pending : St -> option timer.
Variable call : Z -> Args -> St -> St * list invocation.
Variable timeout : Z -> St -> St * list invocation.

Definition advance (now : Z) (st : St) : St * list invocation :=
  match pending st with
  | Some tm => if (due tm <=? now)%Z then timeout (due tm) st else (st, [])
  | None => (st, [])
  end.

Definition drain (st : St) : list invocation :=
  match pending st with
  | Some tm => snd (timeout (due tm) st)
  | None => []
  end.

(** One call: the timer that is due runs first, then the wrapper. *)
Definition turn (now : Z) (args : Args) (st : St) : St * list invocation :=
  let (st1, fired1) := advance now st in
  let (st2, fired2) := call now args st1 in
  (st2, fired1 ++ fired2).

Fixpoint run (calls : list invocation) (st : St) : list invocation :=
  match calls with
  | [] => drain st
  | (now, args) :: rest =>
      let (st', fired) := turn now args st in
      fired ++ run rest st'
  end.

End EventLoop.

Definition throttle_run (calls : list invocation) : list invocation :=
  run t_timeoutId throttled throttle_timeout calls throttle_init.

Definition debounce_run (calls : list invocation) : list invocation :=
  run d_timeoutId debounced debounce_timeout calls debounce_init.

(** *** Vocabulary of the claims *)

(** Consecutive clock readings are at least [delay] apart. *)
Fixpoint spaced (times : list Z) : Prop :=
  match times with
  | t1 :: ((t2 :: _) as rest) => (t1 + delay <= t2)%Z /\ spaced rest
  | _ => True
  end.

(** A pending timer of the throttle is due one [delay] after the last
    execution. *)
Definition on_schedule (st : throttle_state) : Prop :=
  match t_timeoutId st with
  | Some tm => due tm = (lastExecTime st + delay)%Z
  | None => True
  end.

Definition throttle_turn : Z -> Args -> throttle_state
                           -> throttle_state * list invocation :=
  turn t_timeoutId throttled throttle_timeout.

Definition throttle_loop : list invocation -> throttle_state
                           -> list invocation :=
  run t_timeoutId throttled throttle_timeout.

(** [func] runs one (non-negative) [delay] after the call. *)
Definition fire_after (c : invocation) : invocation :=
  ((fst c + Z.max 0 delay)%Z, snd c).

(** The calls that end a burst: those not followed by another call
    before their own timer is due. *)
Fixpoint burst_ends (calls : list invocation) : list invocation :=
  match calls with
  | [] => []
  | (t, a) :: rest =>
      match rest with
      | [] => [(t, a)]
      | (t', _) :: _ =>
          if (t + Z.max 0 delay <=? t')%Z
          then (t, a) :: burst_ends rest
          else burst_ends rest
      end
  end.

End Wrappers.

End Timers.

(* ================================================================== *)
(** ** Scrolling to a section ([scrollToSection]) and page layout *)

Module Navigation.
Import Tracker.


(** Sections laid out one below the other: each later section in
    document order starts at or after the end of an earlier one. *)
Fixpoint stacked (secs : list PageSection) : Prop :=
  match secs with
  | [] => True
  | s :: rest =>
      Forall (fun s' => (offsetTop s + offsetHeight s <= offsetTop s')%Z) rest
      /\ stacked rest
  end.

(** No two links name the same fragment. *)
Definition distinct_fragments (w : World) : Prop :=
  NoDup (map fragment (navLinks w)).

(** What [updateNavbarBackground] leaves in [elements.nav]. *)
Definition nav_after_scroll (w : World) : option string :=
  match nav w with
  | None => None
  | Some _ => Some (if (50 <? scrollY w)%Z
                    then "rgba(11, 11, 12, 0.95)"%string
                    else "rgba(11, 11, 12, 0.9)"%string)
  end.

End Navigation.

(* ================================================================== *)
(** ** Scroll-triggered animations (the [IntersectionObserver] callback) *)

Module Animation.

(** An [IntersectionObserverEntry]; elements are told apart by a number. *)
Record Entry := {
  target : nat;
  isIntersecting : bool
}.

(** Which elements carry the [visible] class. *)
Definition Visible : Type := nat -> bool.

(** [element.classList.add('visible')] *)
Definition addVisible (element : nat) (v : Visible) : Visible :=
  fun x => if Nat.eqb x element then true else v x.

(** The callback given to [new IntersectionObserver]:
    [entries.forEach(entry => { if (entry.isIntersecting) ... })]. *)
Fixpoint observerCallback (entries : list Entry) (v : Visible) : Visible :=
  match entries with
  | [] => v
  | entry :: rest =>
      observerCallback rest
        (if isIntersecting entry then addVisible (target entry) v else v)
  end.

End Animation.

(* ================================================================== *)
(** ** Patterns of calls to a rate limiter *)

Module CallPatterns.

Section Patterns.

Variable Args : Type.
Variable delay : Z.

(** Every call comes more than [delay] after the one before, the first
    more than [delay] after clock reading [last]. *)
Fixpoint slow (last : Z) (calls : list (Z * Args)) : Prop :=
  match calls with
  | [] => True
  | (t, _) :: rest => (delay < t - last)%Z /\ slow t rest
  end.

(** Every call but the first comes before the timer of the one before
    is due. *)
Fixpoint rapid (calls : list (Z * Args)) : Prop :=
  match calls with
  | (t, _) :: (((t', _) :: _) as rest) =>
      (t' < t + Z.max 0 delay)%Z /\ rapid rest
  | _ => True
  end.

(** Every call but the first comes when the timer of the one before
    has run. *)
Fixpoint isolated (calls : list (Z * Args)) : Prop :=
  match calls with
  | (t, _) :: (((t', _) :: _) as rest) =>
      (t + Z.max 0 delay <= t')%Z /\ isolated rest
  | _ => True
  end.

(** How many timers of a throttle are pending: none or one. *)
Definition pending_count (st : Timers.throttle_state Args) : nat :=
  match Timers.t_timeoutId st with Some _ => 1%nat | None => 0%nat end.

End Patterns.

End CallPatterns.

(* ================================================================== *)
(** * Properties *)

Unset Implicit Arguments.

(** ** Trimming *)

Module JsStringFacts.
Import JsString.

Lemma eqb_eq (a b : t) : eqb a b = true <-> a = b.
Proof.
  unfold eqb. destruct (list_eq_dec N.eq_dec a b); split; congruence.
Qed.

Lemma eqb_refl (a : t) : eqb a a = true.
Proof. now apply eqb_eq. Qed.

Lemma opt_eqb_eq (a b : option t) : opt_eqb a b = true <-> a = b.
Proof.
  destruct a as [x|], b as [y|]; simpl; try (split; congruence).
  rewrite eqb_eq. split; congruence.
Qed.

Lemma opt_eqb_refl (a : option t) : opt_eqb a a = true.
Proof. now apply opt_eqb_eq. Qed.

Lemma trimStart_idem (s : t) : trimStart (trimStart s) = trimStart s.
Proof.
  induction s as [|c s IH]; simpl; [reflexivity|].
  destruct (is_space c) eqn:E; [exact IH|].
  simpl. now rewrite E.
Qed.

(** What [trimStart] returns is empty or starts with a non-space. *)
Lemma trimStart_head (s : t) :
  trimStart s = [] \/
  exists c r, trimStart s = c :: r /\ is_space c = false.
Proof.
  induction s as [|c s IH]; simpl; [now left|].
  destruct (is_space c) eqn:E; [exact IH|].
  right. now exists c, s.
Qed.

(** [trimStart] never eats past a non-space. *)
Lemma trimStart_app_keep (l m : t) (c : code_unit) :
  is_space c = false ->
  trimStart (l ++ c :: m) = trimStart l ++ c :: m.
Proof.
  intros Hc. induction l as [|a l IH]; simpl.
  - now rewrite Hc.
  - destruct (is_space a); [exact IH | reflexivity].
Qed.

Lemma trimEnd_cons_keep (c : code_unit) (r : t) :
  is_space c = false ->
  trimEnd (c :: r) = c :: trimEnd r.
Proof.
  intros Hc. unfold trimEnd. simpl rev at 2.
  rewrite trimStart_app_keep by exact Hc.
  rewrite rev_app_distr. reflexivity.
Qed.

Lemma trimEnd_idem (s : t) : trimEnd (trimEnd s) = trimEnd s.
Proof.
  unfold trimEnd. rewrite rev_involutive, trimStart_idem. reflexivity.
Qed.

Lemma trim_idem (s : t) : trim (trim s) = trim s.
Proof.
  unfold trim.
  destruct (trimStart_head s) as [E | (c & r & E & Hc)]; rewrite E.
  - reflexivity.
  - rewrite trimEnd_cons_keep by exact Hc. simpl. rewrite Hc.
    rewrite trimEnd_cons_keep by exact Hc. now rewrite trimEnd_idem.
Qed.

End JsStringFacts.

(** ** The derivative matcher decides the language *)

Module RegexFacts.
Import Regex.

Create HintDb rx.
#[local] Hint Constructors lang : rx.

Lemma lang_cat (a b : regex) (s : list N) :
  lang (Cat a b) s <-> exists s1 s2, s = s1 ++ s2 /\ lang a s1 /\ lang b s2.
Proof.
  split.
  - inversion 1; subst. eauto.
  - intros (s1 & s2 & -> & H1 & H2). auto with rx.
Qed.

Lemma nullable_lang (r : regex) : nullable r = true <-> lang r [].
Proof.
  induction r as [| |p|a IHa b IHb|a IHa b IHb|a IHa]; simpl.
  - split; [discriminate | inversion 1].
  - split; auto with rx.
  - split; [discriminate | inversion 1].
  - rewrite andb_true_iff, IHa, IHb. split.
    + intros [Ha Hb]. change (@nil N) with (@nil N ++ []). auto with rx.
    + intros H. apply lang_cat in H as (s1 & s2 & E & H1 & H2).
      symmetry in E. apply app_eq_nil in E as [-> ->]. auto.
  - rewrite orb_true_iff, IHa, IHb. split.
    + intros [H|H]; auto with rx.
    + inversion 1; subst; auto.
  - split; auto with rx.
Qed.

Lemma lang_cat_cons (a b : regex) (c : N) (s : list N) :
  lang (Cat a b) (c :: s) <->
  (exists s1 s2, s = s1 ++ s2 /\ lang a (c :: s1) /\ lang b s2) \/
  (lang a [] /\ lang b (c :: s)).
Proof.
  split.
  - intros H. apply lang_cat in H as (s1 & s2 & E & H1 & H2).
    destruct s1 as [|x s1]; simpl in E.
    + right. subst. auto.
    + injection E as <- ->. left. now exists s1, s2.
  - intros [(s1 & s2 & -> & H1 & H2) | [H1 H2]].
    + change (c :: s1 ++ s2) with ((c :: s1) ++ s2). auto with rx.
    + change (c :: s) with ([] ++ c :: s). auto with rx.
Qed.

Lemma lang_star_cons (a : regex) (c : N) (s : list N) :
  lang (Star a) (c :: s) <->
  exists s1 s2, s = s1 ++ s2 /\ lang a (c :: s1) /\ lang (Star a) s2.
Proof.
  split.
  - inversion 1; subst. eauto.
  - intros (s1 & s2 & -> & H1 & H2). auto with rx.
Qed.

Lemma deriv_lang (r : regex) :
  forall c s, lang (deriv c r) s <-> lang r (c :: s).
Proof.
  induction r as [| |p|a IHa b IHb|a IHa b IHb|a IHa]; intros c s; simpl.
  - split; inversion 1.
  - split; inversion 1.
  - destruct (p c) eqn:E; split; inversion 1; subst; auto with rx; congruence.
  - rewrite lang_cat_cons.
    destruct (nullable a) eqn:En.
    + split.
      * inversion 1 as [| | |? ? ? H1|? ? ? H1| |]; subst.
        -- inversion H1; subst. left. do 2 eexists. split; [reflexivity|].
           split; [now apply IHa | assumption].
        -- right. split; [now apply nullable_lang | now apply IHb].
      * intros [(s1 & s2 & -> & H1 & H2) | [H1 H2]].
        -- apply L_alt_l. apply L_cat; [now apply IHa | assumption].
        -- apply L_alt_r. now apply IHb.
    + split.
      * inversion 1; subst. left. do 2 eexists. split; [reflexivity|].
        split; [now apply IHa | assumption].
      * intros [(s1 & s2 & -> & H1 & H2) | [H1 H2]].
        -- apply L_cat; [now apply IHa | assumption].
        -- apply nullable_lang in H1. congruence.
  - split.
    + inversion 1; subst; [apply L_alt_l; now apply IHa | apply L_alt_r; now apply IHb].
    + inversion 1; subst; [apply L_alt_l; now apply IHa | apply L_alt_r; now apply IHb].
  - rewrite lang_star_cons. split.
    + inversion 1; subst. do 2 eexists. split; [reflexivity|].
      split; [now apply IHa | assumption].
    + intros (s1 & s2 & -> & H1 & H2). apply L_cat; [now apply IHa | assumption].
Qed.

Lemma test_lang (s : list N) : forall r, test r s = true <-> lang r s.
Proof.
  induction s as [|c s IH]; intros r; simpl.
  - apply nullable_lang.
  - rewrite IH. apply deriv_lang.
Qed.

(** Strings of a character class. *)

Lemma lang_class (p : N -> bool) (s : list N) :
  lang (Class p) s <-> exists c, s = [c] /\ p c = true.
Proof.
  split.
  - inversion 1; subst. eauto.
  - intros (c & -> & H). auto with rx.
Qed.

Lemma lang_star_class (p : N -> bool) (s : list N) :
  lang (Star (Class p)) s <-> forallb p s = true.
Proof.
  induction s as [|c s IH]; simpl.
  - split; auto with rx.
  - rewrite lang_star_cons, andb_true_iff. split.
    + intros (s1 & s2 & -> & H1 & H2).
      apply lang_class in H1 as (c' & E & Hp). inversion E; subst; simpl.
      split; [assumption | now apply IH].
    + intros [Hp Hs]. exists [], s. repeat split; auto with rx. now apply IH.
Qed.

Lemma lang_plus_class (p : N -> bool) (s : list N) :
  lang (Plus (Class p)) s <-> s <> [] /\ forallb p s = true.
Proof.
  unfold Plus. destruct s as [|c s].
  - split.
    + intros H. apply nullable_lang in H. discriminate.
    + intros [H _]. congruence.
  - rewrite lang_cat_cons. simpl. rewrite andb_true_iff. split.
    + intros [(s1 & s2 & -> & H1 & H2) | [H1 _]].
      * apply lang_class in H1 as (c' & E & Hp). inversion E; subst; simpl.
        split; [discriminate|]. split; [assumption | now apply lang_star_class].
      * inversion H1.
    + intros [_ [Hp Hs]]. left. exists [], s.
      repeat split; auto with rx. now apply lang_star_class.
Qed.

Lemma lang_chr (c : N) (s : list N) : lang (Chr c) s <-> s = [c].
Proof.
  unfold Chr. rewrite lang_class. split.
  - intros (x & -> & H). apply N.eqb_eq in H. now subst.
  - intros ->. exists c. split; [reflexivity | apply N.eqb_refl].
Qed.

End RegexFacts.

(** ** Field validator *)

Module ValidatorFacts.
Import Validator.

Lemma emailRegex_shape (s : jsstring) :
  Regex.test emailRegex s = true <-> email_shaped s.
Proof.
  rewrite RegexFacts.test_lang. unfold emailRegex, email_shaped.
  rewrite RegexFacts.lang_cat. split.
  - intros (l & r1 & -> & Hl & H).
    apply RegexFacts.lang_cat in H as (at_ & r2 & -> & Hat & H).
    apply RegexFacts.lang_cat in H as (d & r3 & -> & Hd & H).
    apply RegexFacts.lang_cat in H as (dot & t & -> & Hdot & Ht).
    apply RegexFacts.lang_chr in Hat, Hdot. subst at_ dot.
    apply RegexFacts.lang_plus_class in Hl, Hd, Ht.
    exists l, d, t. simpl. tauto.
  - intros (l & d & t & -> & Hl & Hd & Ht & Fl & Fd & Ft).
    exists l, (64%N :: d ++ 46%N :: t). split; [reflexivity|].
    split; [now apply RegexFacts.lang_plus_class|].
    apply RegexFacts.lang_cat. exists [64%N], (d ++ 46%N :: t).
    split; [reflexivity|]. split; [now apply RegexFacts.lang_chr|].
    apply RegexFacts.lang_cat. exists d, (46%N :: t).
    split; [reflexivity|]. split; [now apply RegexFacts.lang_plus_class|].
    apply RegexFacts.lang_cat. exists [46%N], t.
    split; [reflexivity|]. split; [now apply RegexFacts.lang_chr|].
    now apply RegexFacts.lang_plus_class.
Qed.

(** [validateField] in terms of the verdict of its [switch]. *)
Lemma validateField_rule (f : Field) :
  validateField f =
  let r := rule (type f) (required f) (JsString.trim (value f)) in
  if fst r then (true, clearFieldError f)
  else (false, showFieldError (clearFieldError f) (snd r)).
Proof.
  unfold validateField.
  destruct (rule (type f) (required f) (JsString.trim (value f))) as [[|] m];
    reflexivity.
Qed.

Lemma blur_shows_error_iff (f : Field) :
  shows_error (on_blur f) <-> fst (validateField f) = false.
Proof.
  unfold on_blur. rewrite validateField_rule. cbv zeta.
  destruct (fst (rule _ _ _)); unfold shows_error; simpl; split;
    try discriminate; try reflexivity.
  - intros [H _]. discriminate.
  - intros _. split; [reflexivity | eauto].
Qed.

Lemma blur_shows_no_error_iff (f : Field) :
  shows_no_error (on_blur f) <-> fst (validateField f) = true.
Proof.
  unfold on_blur. rewrite validateField_rule. cbv zeta.
  destruct (fst (rule _ _ _)); unfold shows_no_error; simpl; split;
    try discriminate; try reflexivity; auto.
  intros [H _]. discriminate.
Qed.

Lemma verdict_is_rule (f : Field) :
  fst (validateField f) =
  fst (rule (type f) (required f) (JsString.trim (value f))).
Proof.
  rewrite validateField_rule. cbv zeta.
  destruct (fst (rule _ _ _)); reflexivity.
Qed.

Lemma truthy_false_iff (s : jsstring) : JsString.truthy s = false <-> s = [].
Proof. destruct s; simpl; split; congruence. Qed.

Lemma truthy_true_iff (s : jsstring) : JsString.truthy s = true <-> s <> [].
Proof. destruct s; simpl; split; congruence. Qed.

(** What the [email] case does, for any [required]. *)
Lemma email_rule (f : Field) :
  type f = "email"%string ->
  (shows_error (on_blur f) <->
   JsString.trim (value f) <> [] /\ ~ email_shaped (JsString.trim (value f))).
Proof.
  intros Ht. rewrite blur_shows_error_iff, verdict_is_rule.
  unfold rule. rewrite Ht. simpl String.eqb. cbv iota.
  rewrite <- emailRegex_shape, <- truthy_true_iff.
  destruct (JsString.truthy _), (Regex.test _ _); simpl; split;
    intuition congruence.
Qed.

(** C4. Blur validation of an email field: an error should appear when
    the value is non-empty and fails the pattern, or when it is empty and
    the field is required.  Evaluated on a required email field left
    empty, the [email] case of the [switch] never looks at [required]
    (the [text] and [default] cases do): the verdict is "valid", no
    error is displayed and the field is left as it was.  The examples of
    the claim do hold: "a@b.co" passes, "a@b" fails, and an empty value
    on a field that is not required passes. *)
Theorem email_required_empty_passes :
  validateField (input "email" true []) = (true, input "email" true [])
  /\ shows_no_error (on_blur (input "email" true []))
  /\ shows_error (on_blur (input "text" true []))
  /\ shows_error (on_blur (input "textarea" true []))
  /\ shows_no_error (on_blur (input "email" false (JsString.lit "a@b.co")))
  /\ shows_error (on_blur (input "email" false (JsString.lit "a@b")))
  /\ shows_no_error (on_blur (input "email" false [])).
Proof.
  repeat split; try reflexivity; eexists; reflexivity.
Qed.

(** C7. An [input] event leaves no error displayed at the field, whatever
    was displayed before and whatever was typed; in particular the error
    shown by a blur with a bad value is gone after the next [input]
    event. *)
Theorem input_clears_error :
  (forall (f : Field) (typed : jsstring), shows_no_error (on_input typed f))
  /\ (forall (f : Field) (typed : jsstring),
        shows_error (on_blur f) -> shows_no_error (on_input typed (on_blur f)))
  /\ (shows_error (on_blur (input "email" true (JsString.lit "a@b")))
      /\ shows_no_error
           (on_input (JsString.lit "a@") (on_blur (input "email" true (JsString.lit "a@b"))))).
Proof.
  assert (H : forall f typed, shows_no_error (on_input typed f))
    by (intros; split; reflexivity).
  split; [exact H|]. split; [intros; apply H|].
  split; [|apply H]. split; [reflexivity | eexists; reflexivity].
Qed.

Lemma input_clears_error_witness :
  shows_no_error
    (on_input (JsString.lit "x")
       (on_blur (input "text" true (JsString.lit " a ")))).
Proof.
  apply (proj1 (proj2 input_clears_error)).
  split; [reflexivity | eexists; reflexivity].
Defined.

(** C8. On blur, a required [text] field shows an error exactly when its
    trimmed value is shorter than 2 (so " a " is rejected and "ab" is
    accepted); a required field of any type other than [email] and [text]
    shows an error exactly when its trimmed value is empty. *)
Theorem required_field_rules :
  (forall f : Field,
      type f = "text"%string -> required f = true ->
      (shows_error (on_blur f) <->
       (List.length (JsString.trim (value f)) < 2)%nat)
      /\ (shows_no_error (on_blur f) <->
          (2 <= List.length (JsString.trim (value f)))%nat))
  /\ (forall f : Field,
        type f <> "email"%string -> type f <> "text"%string ->
        required f = true ->
        (shows_error (on_blur f) <-> JsString.trim (value f) = [])
        /\ (shows_no_error (on_blur f) <-> JsString.trim (value f) <> []))
  /\ shows_error (on_blur (input "text" true (JsString.lit " a ")))
  /\ shows_no_error (on_blur (input "text" true (JsString.lit "ab"))).
Proof.
  split; [|split; [|split]].
  - intros f Ht Hr.
    rewrite blur_shows_error_iff, blur_shows_no_error_iff, verdict_is_rule.
    unfold rule. rewrite Ht, Hr. simpl String.eqb. cbv iota. simpl andb.
    destruct (Nat.ltb_spec (List.length (JsString.trim (value f))) 2);
      simpl; split; split; intros; try lia; try discriminate; reflexivity.
  - intros f He Ht Hr.
    rewrite blur_shows_error_iff, blur_shows_no_error_iff, verdict_is_rule.
    unfold rule. apply String.eqb_neq in He, Ht. rewrite He, Ht, Hr.
    simpl andb. unfold not. rewrite <- truthy_false_iff.
    destruct (JsString.truthy _); simpl; split; split;
      intuition congruence.
  - split; [reflexivity | eexists; reflexivity].
  - split; reflexivity.
Qed.

Lemma required_field_rules_witness :
  shows_error (on_blur (input "text" true (JsString.lit " a ")))
  /\ shows_error (on_blur (input "textarea" true (JsString.lit "  "))).
Proof.
  split.
  - apply (proj1 (proj1 required_field_rules
                    (input "text" true (JsString.lit " a ")) eq_refl eq_refl)).
    vm_compute. lia.
  - apply (proj1 (proj1 (proj2 required_field_rules)
                    (input "textarea" true (JsString.lit "  "))
                    ltac:(discriminate) ltac:(discriminate) eq_refl)).
    reflexivity.
Defined.

(** C10. Validation does not see leading or trailing whitespace: for a
    field of any type and any value, validating the value and validating
    the trimmed value give the same verdict, the same error message and
    the same error mark; " a@b.co " is accepted on an email field. *)
Theorem validation_ignores_outer_whitespace :
  (forall f : Field,
      let f' := set_value (JsString.trim (value f)) f in
      fst (validateField f) = fst (validateField f')
      /\ errorMessage (on_blur f) = errorMessage (on_blur f')
      /\ errorClass (on_blur f) = errorClass (on_blur f'))
  /\ fst (validateField (input "email" false (JsString.lit " a@b.co "))) = true
  /\ shows_no_error (on_blur (input "email" false (JsString.lit " a@b.co "))).
Proof.
  split; [|split; [reflexivity | split; reflexivity]].
  intros f f'. unfold on_blur. subst f'.
  rewrite !validateField_rule. cbv zeta. simpl type. simpl required.
  simpl value. rewrite JsStringFacts.trim_idem.
  destruct (fst (rule _ _ _)); simpl; auto.
Qed.

End ValidatorFacts.

(** ** Active-section tracker *)

Module TrackerFacts.
Import Tracker.

(** *** The monad and [forEach] *)

Lemma forEach_preserves (A : Type) (Q : World -> Prop) (f : A -> M unit) :
  (forall x w, Q w -> Q (snd (f x w))) ->
  forall l w, Q w -> Q (snd (forEach f l w)).
Proof.
  intros Hf l. induction l as [|x l IH]; intros w Hw; simpl; [exact Hw|].
  unfold bind. specialize (Hf x w Hw).
  destruct (f x w) as [[[]|e] w1]; simpl in *; auto.
Qed.

(** *** Toggling the links *)

Lemma toggleLinks_hrefs (a : option jsstring) (links : list NavLink) :
  map href (snd (toggleLinks a links)) = map href links.
Proof.
  induction links as [|l links IH]; simpl; [reflexivity|].
  destruct (href l) as [h|] eqn:E; [|simpl; now rewrite E].
  destruct (toggleLinks a links) as [r rest]. simpl in *.
  now rewrite IH.
Qed.

Lemma toggleLinks_total (a : option jsstring) (links : list NavLink) :
  Forall (fun l => href l <> None) links ->
  toggleLinks a links = (Return tt, map (retoggled a) links).
Proof.
  induction 1 as [|l links Hl _ IH]; simpl; [reflexivity|].
  unfold retoggled at 1. destruct (href l) as [h|]; [|congruence].
  now rewrite IH.
Qed.

Lemma retoggled_have_href (a : option jsstring) (links : list NavLink) :
  Forall (fun l => href l <> None) links ->
  Forall (fun l => href l <> None) (map (retoggled a) links).
Proof.
  intros H. apply Forall_map. eapply Forall_impl; [|exact H]. auto.
Qed.

Lemma retoggled_reflect (a : option jsstring) (links : list NavLink) :
  Forall (fun l => href l <> None) links ->
  Forall (fun l => exists h, href l = Some h /\
                   active l = str_is (JsString.substring1 h) a)
         (map (retoggled a) links).
Proof.
  intros H. apply Forall_map. eapply Forall_impl; [|exact H].
  intros l Hl. unfold retoggled. simpl in *.
  destruct (href l) as [h|]; [eauto | congruence].
Qed.

(** *** Visiting one section *)

Lemma visit_miss (p : Z) (s : PageSection) (w : World) :
  in_range p s = false -> visitSection p s w = (Return tt, w).
Proof. unfold visitSection. now intros ->. Qed.

Lemma visit_match (p : Z) (s : PageSection) (w : World) :
  in_range p s = true -> links_have_href w ->
  visitSection p s w = (Return tt, select (id s) w).
Proof.
  unfold visitSection, select. intros -> H. unfold bind, get.
  destruct (JsString.opt_eqb (currentSection w) (id s)); simpl;
    [reflexivity|].
  unfold updateNavLinks. simpl. now rewrite toggleLinks_total.
Qed.

Lemma visit_hrefs (p : Z) (s : PageSection) (w : World) :
  map href (navLinks (snd (visitSection p s w))) = map href (navLinks w).
Proof.
  unfold visitSection. destruct (in_range p s); [|reflexivity].
  unfold bind, get.
  destruct (JsString.opt_eqb (currentSection w) (id s)); simpl;
    [reflexivity|].
  unfold updateNavLinks. simpl.
  pose proof (toggleLinks_hrefs (id s) (navLinks w)) as H.
  destruct (toggleLinks (id s) (navLinks w)) as [r ls]. exact H.
Qed.

Lemma visit_nav (p : Z) (s : PageSection) (w : World) :
  nav (snd (visitSection p s w)) = nav w.
Proof.
  unfold visitSection. destruct (in_range p s); [|reflexivity].
  unfold bind, get.
  destruct (JsString.opt_eqb (currentSection w) (id s)); simpl;
    [reflexivity|].
  unfold updateNavLinks. simpl.
  destruct (toggleLinks (id s) (navLinks w)) as [r ls]. reflexivity.
Qed.

(** *** [select] *)

Lemma select_current (sid : option jsstring) (w : World) :
  currentSection (select sid w) = sid.
Proof.
  unfold select.
  destruct (JsString.opt_eqb (currentSection w) sid) eqn:E; [|reflexivity].
  now apply JsStringFacts.opt_eqb_eq.
Qed.

Lemma select_have_href (sid : option jsstring) (w : World) :
  links_have_href w -> links_have_href (select sid w).
Proof.
  unfold select, links_have_href.
  destruct (JsString.opt_eqb (currentSection w) sid); [auto|].
  simpl. apply retoggled_have_href.
Qed.

Lemma select_coherent (sid : option jsstring) (w : World) :
  links_have_href w -> coherent w -> coherent (select sid w).
Proof.
  unfold select. intros Hh Hc.
  destruct (JsString.opt_eqb (currentSection w) sid); [exact Hc|].
  right. unfold links_reflect. simpl. now apply retoggled_reflect.
Qed.

Lemma select_all_have_href (ms : list PageSection) :
  forall w, links_have_href w -> links_have_href (select_all ms w).
Proof.
  induction ms as [|s ms IH]; intros w H; simpl; [exact H|].
  apply IH. now apply select_have_href.
Qed.

Lemma select_all_coherent (ms : list PageSection) :
  forall w, links_have_href w -> coherent w -> coherent (select_all ms w).
Proof.
  induction ms as [|s ms IH]; intros w Hh Hc; simpl; [exact Hc|].
  apply IH; [now apply select_have_href | now apply select_coherent].
Qed.

(** After the sections containing the position have been visited, the
    last of them is the current one. *)
Lemma select_all_last (ms : list PageSection) (s : PageSection) (w : World) :
  currentSection (select_all (ms ++ [s]) w) = id s.
Proof.
  unfold select_all. rewrite fold_left_app. simpl. apply select_current.
Qed.

(** *** The whole handler *)

Lemma forEach_visit (p : Z) (l : list PageSection) :
  forall w, links_have_href w ->
  forEach (visitSection p) l w =
  (Return tt, select_all (filter (in_range p) l) w).
Proof.
  induction l as [|s l IH]; intros w H; simpl; [reflexivity|].
  unfold bind. destruct (in_range p s) eqn:E.
  - rewrite visit_match by assumption. simpl.
    apply IH. now apply select_have_href.
  - rewrite visit_miss by assumption. now apply IH.
Qed.

Lemma updateActiveNavigation_selects (w : World) :
  links_have_href w ->
  updateActiveNavigation w =
  (Return tt, select_all (containing (scrollY w + navOffset) w) w).
Proof.
  intros H. unfold updateActiveNavigation, bind, get, containing.
  now apply forEach_visit.
Qed.

Lemma handleScroll_tracker (w : World) :
  navLinks (after handleScroll w) = navLinks (after updateActiveNavigation w)
  /\ currentSection (after handleScroll w)
     = currentSection (after updateActiveNavigation w).
Proof.
  unfold after, handleScroll, bind.
  destruct (updateActiveNavigation w) as [[[]|e] w1]; simpl; [|auto].
  unfold updateNavbarBackground, bind, get. destruct (nav w1); simpl; auto.
Qed.

Lemma updateActiveNavigation_hrefs (w : World) :
  map href (navLinks (after updateActiveNavigation w)) = map href (navLinks w).
Proof.
  unfold after, updateActiveNavigation, bind, get.
  apply (forEach_preserves _
           (fun w' => map href (navLinks w') = map href (navLinks w)));
    [|reflexivity].
  intros s w' H. now rewrite visit_hrefs.
Qed.

Lemma updateActiveNavigation_nav (w : World) :
  nav (after updateActiveNavigation w) = nav w.
Proof.
  unfold after, updateActiveNavigation, bind, get.
  apply (forEach_preserves _ (fun w' => nav w' = nav w)); [|reflexivity].
  intros s w' H. now rewrite visit_nav.
Qed.

Lemma have_href_by_hrefs (l1 l2 : list NavLink) :
  map href l1 = map href l2 ->
  Forall (fun l => href l <> None) l1 -> Forall (fun l => href l <> None) l2.
Proof.
  intros E H.
  apply (Forall_map href (fun o => o <> None)).
  rewrite <- E. now apply (Forall_map href (fun o => o <> None)).
Qed.

(** The fresh state apart, the flags always say which links name the
    current section. *)
Lemma reachable_coherent (w : World) :
  reachable w -> links_have_href w -> coherent w.
Proof.
  induction 1 as [w Hf | w y secs Hr IH | w Hr IH]; intros Hh.
  - now left.
  - exact (IH Hh).
  - destruct (handleScroll_tracker w) as [El Ec].
    assert (Hw : links_have_href w).
    { unfold links_have_href in *.
      eapply have_href_by_hrefs; [|exact Hh].
      rewrite El. apply updateActiveNavigation_hrefs. }
    specialize (IH Hw).
    unfold coherent, links_reflect. rewrite El, Ec.
    unfold after. rewrite updateActiveNavigation_selects by exact Hw.
    simpl. now apply select_all_coherent.
Qed.

(** *** Counting the active links *)

Lemma names_by_hrefs (ident : jsstring) (l1 : list NavLink) :
  forall l2, map href l1 = map href l2 ->
  List.length (filter (names ident) l1) = List.length (filter (names ident) l2).
Proof.
  induction l1 as [|a l1 IH]; intros [|b l2] E; simpl in E; try discriminate;
    [reflexivity|].
  injection E as Eh Et. simpl.
  assert (En : names ident a = names ident b)
    by (unfold names, fragment; now rewrite Eh).
  rewrite En. destruct (names ident b); simpl; auto.
Qed.

Lemma reflect_active_names (ident : jsstring) (l : NavLink) :
  (exists h, href l = Some h /\
             active l = str_is (JsString.substring1 h) (Some ident)) ->
  active l = names ident l.
Proof.
  intros (h & Eh & Ea). unfold names, fragment. now rewrite Ea, Eh.
Qed.

Lemma reflect_filter (ident : jsstring) (links : list NavLink) :
  Forall (fun l => exists h, href l = Some h /\
                   active l = str_is (JsString.substring1 h) (Some ident))
         links ->
  filter active links = filter (names ident) links.
Proof.
  induction 1 as [|l links Hl _ IH]; simpl; [reflexivity|].
  rewrite (reflect_active_names ident l Hl), IH. reflexivity.
Qed.

Lemma reflect_sole_active (ident : jsstring) (w : World) :
  links_reflect (Some ident) w ->
  List.length (filter (names ident) (navLinks w)) = 1%nat ->
  sole_active ident w.
Proof.
  intros Hr Hn. split.
  - now rewrite (reflect_filter ident (navLinks w) Hr).
  - intros l Hin Ha.
    unfold links_reflect in Hr. rewrite Forall_forall in Hr.
    pose proof (reflect_active_names ident l (Hr l Hin)) as E.
    rewrite Ha in E. symmetry in E.
    now apply JsStringFacts.opt_eqb_eq in E.
Qed.

(** *** The claims *)

Lemma fresh_page_reachable (y : Z) (n : option string) (ls : list NavLink)
  (secs : list PageSection) : reachable (page y n ls secs).
Proof. apply reach_fresh. reflexivity. Qed.

(** C1, as stated, fails.  Sections "a" = [0,100) and "b" = [100,200)
    with one link each; the scroll offset 50 lies inside the range of "a"
    alone, yet after the scroll handler the one active link is the link
    of "b": the handler tests offset + 80 = 130. *)
Lemma offset_inside_a_activates_b :
  reachable adjacent_at_50
  /\ links_have_href adjacent_at_50
  /\ sections_linked adjacent_at_50
  /\ containing (scrollY adjacent_at_50) adjacent_at_50
     = [section_at 0 100 "a"]
  /\ sole_active (JsString.lit "b") (after handleScroll adjacent_at_50)
  /\ ~ sole_active (JsString.lit "a") (after handleScroll adjacent_at_50).
Proof.
  split; [apply fresh_page_reachable|].
  split; [repeat constructor; discriminate|].
  split; [repeat constructor; eexists; (split; [reflexivity|]);
          (split; [discriminate | reflexivity])|].
  split; [reflexivity|].
  split.
  - split; [reflexivity|].
    intros l [<- | [<- | []]]; simpl; [discriminate | reflexivity].
  - intros [_ H].
    specialize (H (link "#b" true) (or_intror (or_introl eq_refl)) eq_refl).
    discriminate H.
Qed.

(** C1, amended.  In a world reached from a fresh page in which every
    link has an href and every section has a non-empty id named by
    exactly one link: when the position the handler computes (scroll
    offset plus 80) lies inside the range of exactly one section, then
    after the scroll handler exactly one link is active and it names that
    section. *)
Theorem position_in_one_section_one_active
  (w : World) (s : PageSection) (ident : jsstring) :
  reachable w ->
  links_have_href w ->
  sections_linked w ->
  containing (scrollY w + navOffset) w = [s] ->
  id s = Some ident ->
  sole_active ident (after handleScroll w).
Proof.
  intros Hr Hh Hs Hc Hid.
  assert (Hin : In s (sections w)).
  { assert (H : In s (containing (scrollY w + navOffset) w))
      by (rewrite Hc; now left).
    unfold containing in H. now apply filter_In in H. }
  unfold sections_linked in Hs. rewrite Forall_forall in Hs.
  destruct (Hs s Hin) as (i & Ei & Hne & Hone).
  assert (i = ident) by congruence. subst i.
  destruct (handleScroll_tracker w) as [El Ec].
  pose proof (updateActiveNavigation_hrefs w) as Ehref.
  revert El Ec Ehref. unfold after at 2 4 5.
  rewrite updateActiveNavigation_selects by exact Hh.
  rewrite Hc. simpl. intros El Ec Ehref.
  assert (Hco : coherent (select (id s) w))
    by (apply select_coherent; [exact Hh | now apply reachable_coherent]).
  assert (Hcur : currentSection (select (id s) w) = Some ident)
    by (rewrite select_current; exact Hid).
  assert (Hrf : links_reflect (Some ident) (after handleScroll w)).
  { unfold links_reflect. rewrite El.
    destruct Hco as [E | Hrf]; [congruence|].
    unfold links_reflect in Hrf. now rewrite Hcur in Hrf. }
  apply reflect_sole_active; [exact Hrf|].
  rewrite El, (names_by_hrefs ident _ _ Ehref). exact Hone.
Qed.

Lemma position_in_one_section_one_active_witness :
  sole_active (JsString.lit "b") (after handleScroll adjacent_at_50).
Proof.
  apply (position_in_one_section_one_active
           adjacent_at_50 (section_at 100 100 "b") (JsString.lit "b")).
  - apply reach_fresh. reflexivity.
  - repeat constructor; discriminate.
  - repeat constructor; eexists; (split; [reflexivity|]);
      (split; [discriminate | reflexivity]).
  - reflexivity.
  - reflexivity.
Defined.

(** Why the amended C1 asks for an href on every link and for non-empty
    ids: a link without href stops [updateNavLinks] half-way, and a fresh
    page whose section has the empty id is never toggled at all. *)
Lemma bare_link_stops_toggle :
  handleScroll
    (page 10 (Some ""%string)
       [{| href := None; active := true |}; link "#a" false]
       [section_at 0 100 "a"])
  = (Throw TypeError,
     {| scrollY := 10; nav := Some ""%string;
        navLinks := [{| href := None; active := true |}; link "#a" false];
        sections := [section_at 0 100 "a"];
        currentSection := Some (JsString.lit "a") |}).
Proof. reflexivity. Qed.

Lemma empty_id_never_toggled :
  navLinks (after handleScroll
              (page 10 (Some ""%string) [link "#" false]
                 [section_at 0 100 ""]))
  = [link "#" false].
Proof. reflexivity. Qed.

(** C2, as stated, fails.  Sections "a" = [0,200) and "b" = [100,300)
    both contain position 70 + 80 = 150; "a" comes first in document
    order, yet the handler leaves "b" current and only the link of "b"
    active. *)
Lemma overlap_selects_b_not_a :
  containing (scrollY overlapping_at_70 + navOffset) overlapping_at_70
  = [section_at 0 200 "a"; section_at 100 200 "b"]
  /\ currentSection (after handleScroll overlapping_at_70)
     = Some (JsString.lit "b")
  /\ currentSection (after handleScroll overlapping_at_70)
     <> id (section_at 0 200 "a")
  /\ navLinks (after handleScroll overlapping_at_70)
     = [link "#a" false; link "#b" true].
Proof.
  split; [reflexivity|]. split; [reflexivity|].
  split; [discriminate | reflexivity].
Qed.

(** C2, amended.  In a world reached from a fresh page in which every
    link has an href: when the position (scroll offset plus 80) lies
    inside the range of one or more sections, the last of them in
    document order becomes the current section, and, its id not being
    the empty string, the active flag of every link tells whether the
    link names it. *)
Theorem overlap_selects_last
  (w : World) (earlier : list PageSection) (s : PageSection) :
  reachable w ->
  links_have_href w ->
  containing (scrollY w + navOffset) w = earlier ++ [s] ->
  id s <> Some [] ->
  currentSection (after handleScroll w) = id s
  /\ links_reflect (id s) (after handleScroll w).
Proof.
  intros Hr Hh Hc Hid.
  destruct (handleScroll_tracker w) as [El Ec].
  revert El Ec. unfold after at 2 4.
  rewrite updateActiveNavigation_selects by exact Hh.
  rewrite Hc. simpl. intros El Ec.
  pose proof (select_all_last earlier s w) as Hcur.
  assert (Hco : coherent (select_all (earlier ++ [s]) w))
    by (apply select_all_coherent; [exact Hh | now apply reachable_coherent]).
  split; [congruence|].
  unfold links_reflect. rewrite El.
  destruct Hco as [E | Hrf]; [congruence|].
  unfold links_reflect in Hrf. now rewrite Hcur in Hrf.
Qed.

Lemma overlap_selects_last_witness :
  currentSection (after handleScroll overlapping_at_70)
  = id (section_at 100 200 "b")
  /\ links_reflect (id (section_at 100 200 "b"))
       (after handleScroll overlapping_at_70).
Proof.
  apply (overlap_selects_last overlapping_at_70 [section_at 0 200 "a"]).
  - apply reach_fresh. reflexivity.
  - repeat constructor; discriminate.
  - reflexivity.
  - discriminate.
Defined.

(** C5. When no section's range contains the position (scroll offset
    plus 80), the scroll handler leaves [currentSection] and every
    link as they were. *)
Theorem no_section_no_change (w : World) :
  Forall (fun s => in_range (scrollY w + navOffset) s = false) (sections w) ->
  updateActiveNavigation w = (Return tt, w)
  /\ currentSection (after handleScroll w) = currentSection w
  /\ navLinks (after handleScroll w) = navLinks w.
Proof.
  intros H.
  assert (E : updateActiveNavigation w = (Return tt, w)).
  { unfold updateActiveNavigation, bind, get.
    induction H as [|s l Hs _ IH]; simpl; [reflexivity|].
    unfold bind. rewrite visit_miss by exact Hs. exact IH. }
  destruct (handleScroll_tracker w) as [El Ec].
  unfold after in El, Ec at 2. rewrite E in El, Ec. auto.
Qed.

Lemma no_section_no_change_witness :
  currentSection (after handleScroll (relayout 500 [section_at 0 100 "a"]
                    (after handleScroll adjacent_at_50)))
  = Some (JsString.lit "b").
Proof.
  refine (eq_trans
    (proj1 (proj2 (no_section_no_change
       (relayout 500 [section_at 0 100 "a"]
          (after handleScroll adjacent_at_50)) _))) _).
  - repeat constructor.
  - reflexivity.
Defined.

(** C6. The scroll handler should skip what it cannot find, as the
    guarded wiring of the form, the toast and the about text does.
    It does not: on any page without a #nav element the handler throws,
    because [updateNavbarBackground] reads [elements.nav.style]
    unguarded; and a link without an href makes [updateNavLinks]
    throw. *)
Theorem scroll_without_nav_throws (w : World) :
  nav w = None ->
  fst (handleScroll w) = Throw TypeError.
Proof.
  intros Hn. unfold handleScroll, bind.
  pose proof (updateActiveNavigation_nav w) as E. unfold after in E.
  destruct (updateActiveNavigation w) as [[[]|[]] w1]; simpl in *;
    [|reflexivity].
  unfold updateNavbarBackground, bind, get. now rewrite E, Hn.
Qed.

Lemma scroll_without_nav_throws_witness :
  fst (handleScroll no_nav_at_10) = Throw TypeError
  /\ fst (handleScroll bare_link_at_10) = Throw TypeError.
Proof.
  split; [apply (scroll_without_nav_throws no_nav_at_10) | ]; reflexivity.
Defined.

End TrackerFacts.

(** ** Rate limiters *)

Module TimersFacts.
Import Timers.

Section Limiters.

Variable Args : Type.
Variable delay : Z.

Local Open Scope Z_scope.

(** *** debounce *)

Lemma burst_ends_cons2 (t0 t : Z) (a0 a : Args) (rest : list (invocation Args)) :
  burst_ends delay ((t0, a0) :: (t, a) :: rest)
  = if t0 + Z.max 0 delay <=? t
    then (t0, a0) :: burst_ends delay ((t, a) :: rest)
    else burst_ends delay ((t, a) :: rest).
Proof. reflexivity. Qed.

Lemma debounce_turn_pending (t0 t : Z) (a0 a : Args) :
  turn (@d_timeoutId Args) (debounced delay) (@debounce_timeout Args) t a
       {| d_timeoutId := setTimeout t0 delay a0 |}
  = ({| d_timeoutId := setTimeout t delay a |},
     if t0 + Z.max 0 delay <=? t then [fire_after delay (t0, a0)] else []).
Proof.
  unfold turn, advance, setTimeout. simpl.
  destruct (t0 + Z.max 0 delay <=? t); reflexivity.
Qed.

Lemma debounce_pending_run (calls : list (invocation Args)) :
  forall (t0 : Z) (a0 : Args),
    run (@d_timeoutId Args) (debounced delay) (@debounce_timeout Args) calls
        {| d_timeoutId := setTimeout t0 delay a0 |}
    = map (fire_after delay) (burst_ends delay ((t0, a0) :: calls)).
Proof.
  induction calls as [|[t a] rest IH]; intros t0 a0.
  - reflexivity.
  - rewrite burst_ends_cons2.
    change (run (@d_timeoutId Args) (debounced delay) (@debounce_timeout Args)
              ((t, a) :: rest) {| d_timeoutId := setTimeout t0 delay a0 |})
      with (let (st', fired) :=
              turn (@d_timeoutId Args) (debounced delay)
                   (@debounce_timeout Args) t a
                   {| d_timeoutId := setTimeout t0 delay a0 |} in
            fired ++ run (@d_timeoutId Args) (debounced delay)
                         (@debounce_timeout Args) rest st').
    rewrite debounce_turn_pending, IH.
    destruct (t0 + Z.max 0 delay <=? t); reflexivity.
Qed.

Lemma debounce_run_bursts (calls : list (invocation Args)) :
  debounce_run delay calls = map (fire_after delay) (burst_ends delay calls).
Proof.
  unfold debounce_run. destruct calls as [|[t a] rest]; [reflexivity|].
  change (run (@d_timeoutId Args) (debounced delay) (@debounce_timeout Args)
            ((t, a) :: rest) (debounce_init Args))
    with ([] ++ run (@d_timeoutId Args) (debounced delay)
                    (@debounce_timeout Args) rest
                    {| d_timeoutId := setTimeout t delay a |}).
  apply debounce_pending_run.
Qed.

(** *** Spacing of clock readings *)

Lemma last_cons (l : list Z) : forall x y, last (y :: l) x = last l y.
Proof.
  induction l as [|z l IH]; intros x y; [reflexivity|].
  change (last (y :: z :: l) x) with (last (z :: l) x).
  rewrite (IH x z). symmetry. apply IH.
Qed.

Lemma spaced_cons2 (x y : Z) (l : list Z) :
  spaced delay (x :: y :: l) <-> x + delay <= y /\ spaced delay (y :: l).
Proof. reflexivity. Qed.

Lemma spaced_tail (x : Z) (l : list Z) :
  spaced delay (x :: l) -> spaced delay l.
Proof. destruct l; [trivial|]. now intros [_ H]. Qed.

Lemma spaced_app (l1 : list Z) :
  forall x l2,
    spaced delay (x :: l1) -> spaced delay (last l1 x :: l2) ->
    spaced delay (x :: l1 ++ l2).
Proof.
  induction l1 as [|y l1 IH]; intros x l2 H1 H2; [exact H2|].
  rewrite last_cons in H2. apply spaced_cons2 in H1 as [Hxy H1].
  change ((y :: l1) ++ l2) with (y :: l1 ++ l2).
  apply spaced_cons2. split; [exact Hxy | now apply IH].
Qed.

(** *** throttle *)

Lemma throttled_deferred (st : throttle_state Args) (t : Z) (a : Args) :
  t - lastExecTime st <= delay ->
  throttled delay t a st =
  ({| t_timeoutId := Some {| due := lastExecTime st + delay; captured := a |};
      lastExecTime := lastExecTime st |}, []).
Proof.
  intros H. unfold throttled, setTimeout.
  destruct (Z.ltb_spec delay (t - lastExecTime st)); [lia|].
  replace (t + Z.max 0 (delay - (t - lastExecTime st)))
    with (lastExecTime st + delay) by lia.
  reflexivity.
Qed.

Lemma throttled_immediate (st : throttle_state Args) (t : Z) (a : Args) :
  delay < t - lastExecTime st ->
  throttled delay t a st =
  ({| t_timeoutId := t_timeoutId st; lastExecTime := t |}, [(t, a)]).
Proof.
  intros H. unfold throttled.
  destruct (Z.ltb_spec delay (t - lastExecTime st)); [reflexivity | lia].
Qed.

Lemma throttle_loop_cons (t : Z) (a : Args) (rest : list (invocation Args))
  (st : throttle_state Args) :
  throttle_loop delay ((t, a) :: rest) st
  = snd (throttle_turn delay t a st)
    ++ throttle_loop delay rest (fst (throttle_turn delay t a st)).
Proof.
  unfold throttle_loop, throttle_turn. simpl run.
  destruct (turn _ _ _ t a st) as [st' fired]. reflexivity.
Qed.

(** One turn of the loop.  The state stays on schedule, [func] runs no
    sooner than one [delay] after its last run, and the arguments of the
    call have either been handed to [func] or wait in the timer set for
    the end of the window. *)
Lemma throttle_turn_spec (st : throttle_state Args) (t : Z) (a : Args) :
  on_schedule delay st ->
  on_schedule delay (fst (throttle_turn delay t a st))
  /\ spaced delay (lastExecTime st :: map fst (snd (throttle_turn delay t a st)))
  /\ lastExecTime (fst (throttle_turn delay t a st))
     = last (map fst (snd (throttle_turn delay t a st))) (lastExecTime st)
  /\ (t_timeoutId (fst (throttle_turn delay t a st))
      = Some {| due := lastExecTime (fst (throttle_turn delay t a st)) + delay;
                captured := a |}
      \/ (t_timeoutId (fst (throttle_turn delay t a st)) = None
          /\ exists pre, snd (throttle_turn delay t a st) = pre ++ [(t, a)])).
Proof.
  unfold on_schedule at 1. unfold throttle_turn, turn, advance.
  destruct st as [[tm|] lastT]; cbn [t_timeoutId lastExecTime]; intros Hs.
  - destruct (Z.leb_spec (due tm) t) as [Hd|Hd].
    + cbn [throttle_timeout t_timeoutId].
      destruct (Z.ltb_spec delay (t - due tm)) as [Hi|Hi].
      * rewrite throttled_immediate by (cbn; lia).
        cbn. repeat split; try lia. right. split; [reflexivity|].
        now exists [(due tm, captured tm)].
      * rewrite throttled_deferred by (cbn; lia).
        cbn. repeat split; try lia. now left.
    + rewrite throttled_deferred by (cbn; lia).
      cbn. repeat split; try lia. now left.
  - destruct (Z.ltb_spec delay (t - lastT)) as [Hi|Hi].
    + rewrite throttled_immediate by (cbn; lia).
      cbn. repeat split; try lia. right. split; [reflexivity|]. now exists [].
    + rewrite throttled_deferred by (cbn; lia).
      cbn. repeat split; try lia. now left.
Qed.

(** [func] never runs twice within one [delay]. *)
Lemma throttle_loop_spaced (calls : list (invocation Args)) :
  forall st : throttle_state Args,
    on_schedule delay st ->
    spaced delay (lastExecTime st :: map fst (throttle_loop delay calls st)).
Proof.
  induction calls as [|[t a] rest IH]; intros st Hs.
  - unfold throttle_loop, run, drain, on_schedule in *. revert Hs.
    destruct st as [[tm|] lastT]; cbn; [lia | trivial].
  - rewrite throttle_loop_cons, map_app.
    destruct (throttle_turn_spec st t a Hs) as (Hs2 & Hsp & Hl & _).
    apply spaced_app; [exact Hsp|].
    pose proof (IH _ Hs2) as H. rewrite Hl in H. exact H.
Qed.

(** The arguments of the latest call are the last that [func] sees. *)
Lemma throttle_loop_last (calls : list (invocation Args)) :
  forall (st : throttle_state Args) (t : Z) (a : Args),
    on_schedule delay st ->
    exists pre time, throttle_loop delay (calls ++ [(t, a)]) st = pre ++ [(time, a)].
Proof.
  induction calls as [|[t0 a0] rest IH]; intros st t a Hs.
  - cbn [app]. rewrite throttle_loop_cons.
    destruct (throttle_turn_spec st t a Hs) as (_ & _ & _ & [E | [E (pre & Ef)]]).
    + exists (snd (throttle_turn delay t a st)). eexists.
      unfold throttle_loop, run, drain, throttle_timeout. rewrite E. cbn.
      reflexivity.
    + exists pre, t. unfold throttle_loop, run, drain. rewrite E, Ef.
      now rewrite app_nil_r.
  - cbn [app]. rewrite throttle_loop_cons.
    destruct (throttle_turn_spec st t0 a0 Hs) as (Hs2 & _).
    destruct (IH _ t a Hs2) as (pre & time & E).
    exists (snd (throttle_turn delay t0 a0 st) ++ pre), time.
    now rewrite E, app_assoc.
Qed.

End Limiters.

Lemma throttle_init_on_schedule (Args : Type) (delay : Z) :
  on_schedule delay (throttle_init Args).
Proof. exact I. Qed.

(** Decide the clock comparisons met while running the loop on a given
    list of calls. *)
Ltac run_loop :=
  unfold throttle_run, debounce_run, run, turn, advance, drain,
    throttled, throttle_timeout, debounced, debounce_timeout,
    throttle_init, debounce_init, setTimeout;
  repeat (cbn [t_timeoutId lastExecTime d_timeoutId due captured fst snd app];
          match goal with
          | |- context [Z.ltb ?x ?y] => destruct (Z.ltb_spec x y); try lia
          | |- context [Z.leb ?x ?y] => destruct (Z.leb_spec x y); try lia
          end);
  cbn [t_timeoutId lastExecTime d_timeoutId due captured fst snd app].

(** The four calls of the example, made when the clock reads [T] to
    [T + 60] and [T] is past the first window. *)
Lemma throttle_four_calls (Args : Type) (a b c d : Args) (T : Z) :
  (50 < T)%Z ->
  throttle_run 50 [(T, a); (T + 5, b); (T + 10, c); (T + 60, d)]%Z
  = [(T, a); (T + 50, c); (T + 100, d)]%Z.
Proof.
  intros HT. run_loop.
  repeat (f_equal; try lia).
Qed.

(** C3, as stated, fails on its example.  With delay 50 and calls at
    0, 5, 10 and 60 ms after a clock reading of 1000, the handler runs at
    0, at 50 (with the arguments of the call at 10) and at 100 (with the
    arguments of the call at 60): three times, and never between 50 and
    100.  Counting the clock from 0 itself, the first call is deferred
    too and the handler runs at 50 and at 100. *)
Lemma throttle_example_runs_at_50_and_100 :
  throttle_run 50 [(1000, 0); (1005, 1); (1010, 2); (1060, 3)]%Z
  = [(1000, 0); (1050, 2); (1100, 3)]%Z
  /\ throttle_run 50 [(0, 0); (5, 1); (10, 2); (60, 3)]%Z
     = [(50, 2); (100, 3)]%Z
  /\ ~ (exists run_ : Z * Z,
          In run_ (throttle_run 50
                     [(1000, 0); (1005, 1); (1010, 2); (1060, 3)]%Z)
          /\ (1050 < fst run_ < 1100)%Z).
Proof.
  split; [reflexivity|]. split; [reflexivity|].
  intros (r & Hin & Hlt).
  change (In r [(1000, 0); (1050, 2); (1100, 3)]%Z) in Hin.
  simpl in Hin. destruct Hin as [<- | [<- | [<- | []]]]; simpl in Hlt; lia.
Qed.

(** C3, amended.  Under a punctual event loop: the first call runs the
    handler at once when the clock then reads more than [delay]; the
    handler never runs twice within one [delay]; a call made within
    [delay] of the last run is deferred to one [delay] after that run,
    with its own arguments and in place of whatever was waiting; the
    arguments of the latest call are the last the handler sees.  For
    calls at T, T+5, T+10 and T+60 with delay 50 (T > 50), the handler
    runs at T, at T+50 with the arguments of the third call, and at
    T+100 with the arguments of the fourth. *)
Theorem throttle_spaces_and_keeps_latest :
  (forall (Args : Type) (delay T : Z) (a : Args),
      (delay < T)%Z ->
      throttled delay T a (throttle_init Args)
      = ({| t_timeoutId := None; lastExecTime := T |}, [(T, a)]))
  /\ (forall (Args : Type) (delay : Z) (calls : list (Z * Args)),
        spaced delay (map fst (throttle_run delay calls)))
  /\ (forall (Args : Type) (delay t : Z) (a : Args) (st : throttle_state Args),
        (t - lastExecTime st <= delay)%Z ->
        throttled delay t a st
        = ({| t_timeoutId :=
                Some {| due := (lastExecTime st + delay)%Z; captured := a |};
              lastExecTime := lastExecTime st |}, []))
  /\ (forall (Args : Type) (delay t : Z) (a : Args) (calls : list (Z * Args)),
        exists earlier time,
          throttle_run delay (calls ++ [(t, a)]) = earlier ++ [(time, a)])
  /\ (forall (Args : Type) (a b c d : Args) (T : Z),
        (50 < T)%Z ->
        throttle_run 50 [(T, a); (T + 5, b); (T + 10, c); (T + 60, d)]%Z
        = [(T, a); (T + 50, c); (T + 100, d)]%Z).
Proof.
  repeat split.
  - intros Args delay T a H.
    apply throttled_immediate. simpl. lia.
  - intros Args delay calls.
    apply (spaced_tail delay 0%Z).
    apply (throttle_loop_spaced Args delay calls (throttle_init Args)).
    apply throttle_init_on_schedule.
  - intros. now apply throttled_deferred.
  - intros Args delay t a calls.
    apply (throttle_loop_last Args delay calls (throttle_init Args)).
    apply throttle_init_on_schedule.
  - intros. now apply throttle_four_calls.
Qed.

Lemma throttle_spaces_and_keeps_latest_witness :
  throttled 50 1000 tt (throttle_init unit)
  = ({| t_timeoutId := None; lastExecTime := 1000 |}, [(1000%Z, tt)])
  /\ throttle_run 50 [(1000, 0); (1005, 1); (1010, 2); (1060, 3)]%Z
     = [(1000, 0); (1050, 2); (1100, 3)]%Z.
Proof.
  split.
  - apply (proj1 throttle_spaces_and_keeps_latest unit 50%Z 1000%Z tt).
    reflexivity.
  - apply (proj2 (proj2 (proj2 (proj2 throttle_spaces_and_keeps_latest)))
             Z 0%Z 1%Z 2%Z 3%Z 1000%Z).
    reflexivity.
Defined.

(** C9.  Under a punctual event loop the debounced handler runs once for
    each burst of calls, one [delay] after the last call of the burst
    and with that call's arguments; every call replaces the pending
    timer by a fresh one.  For calls at 0, 10 and 20 with delay 50 the
    handler runs once, at 70, with the arguments of the third call. *)
Theorem debounce_runs_once_per_burst :
  (forall (Args : Type) (delay : Z) (calls : list (Z * Args)),
      debounce_run delay calls
      = map (fire_after delay) (burst_ends delay calls))
  /\ (forall (Args : Type) (delay now : Z) (args : Args)
             (st : debounce_state Args),
        debounced delay now args st
        = ({| d_timeoutId :=
                Some {| due := (now + Z.max 0 delay)%Z; captured := args |} |},
           []))
  /\ (forall (Args : Type) (a b c : Args),
        debounce_run 50 [(0, a); (10, b); (20, c)]%Z = [(70%Z, c)]).
Proof.
  split; [exact debounce_run_bursts|].
  split; reflexivity.
Qed.

End TimersFacts.

(* ================================================================== *)
(** * Further properties of the code *)

(** ** Field validator *)

Module ValidatorLaws.
Import Validator.

Lemma trimStart_blank (s : jsstring) :
  forallb JsString.is_space s = true -> JsString.trimStart s = [].
Proof.
  induction s as [|c s IH]; simpl; [reflexivity|].
  destruct (JsString.is_space c); simpl; [exact IH | discriminate].
Qed.

Lemma trim_blank (s : jsstring) :
  forallb JsString.is_space s = true -> JsString.trim s = [].
Proof.
  intros H. unfold JsString.trim. now rewrite trimStart_blank.
Qed.

Lemma count_at_none (l : list N) :
  forallb notSpaceAt l = true -> count_occ N.eq_dec l 64%N = 0%nat.
Proof.
  induction l as [|c l IH]; simpl; [reflexivity|].
  rewrite andb_true_iff. intros [Hc Hl]. unfold notSpaceAt in Hc.
  apply andb_true_iff in Hc as [_ Hc]. apply negb_true_iff, N.eqb_neq in Hc.
  destruct (N.eq_dec c 64); [congruence | now apply IH].
Qed.

Lemma no_space_part (l : list N) :
  forallb notSpaceAt l = true ->
  forallb (fun c => negb (JsString.is_space c)) l = true.
Proof.
  induction l as [|c l IH]; simpl; [reflexivity|].
  rewrite !andb_true_iff. intros [Hc Hl]. unfold notSpaceAt in Hc.
  apply andb_true_iff in Hc as [Hc _]. auto.
Qed.

(** The email pattern accepts exactly the strings made of a non-empty
    local part, "@", a non-empty middle part, "." and a non-empty last
    part, where no part holds whitespace or "@". *)
Theorem email_pattern_accepts_shaped (s : jsstring) :
  Regex.test emailRegex s = true <-> email_shaped s.
Proof. apply ValidatorFacts.emailRegex_shape. Qed.

(** Whatever the email pattern accepts holds exactly one "@", holds no
    whitespace and is at least five code units long. *)
Theorem email_pattern_necessary (s : jsstring) :
  Regex.test emailRegex s = true ->
  count_occ N.eq_dec s 64%N = 1%nat
  /\ forallb (fun c => negb (JsString.is_space c)) s = true
  /\ (5 <= List.length s)%nat.
Proof.
  intros H. apply ValidatorFacts.emailRegex_shape in H.
  destruct H as (l & d & t & -> & Hl & Hd & Ht & Fl & Fd & Ft).
  split; [|split].
  - rewrite count_occ_app. simpl.
    rewrite count_occ_app. simpl.
    rewrite !count_at_none by assumption. reflexivity.
  - rewrite forallb_app. simpl. rewrite forallb_app. simpl.
    rewrite !no_space_part by assumption. reflexivity.
  - rewrite length_app. simpl. rewrite length_app. simpl.
    destruct l, d, t; simpl; try congruence; lia.
Qed.

Lemma email_pattern_necessary_witness :
  count_occ N.eq_dec (JsString.lit "a@b.co") 64%N = 1%nat
  /\ forallb (fun c => negb (JsString.is_space c)) (JsString.lit "a@b.co") = true
  /\ (5 <= List.length (JsString.lit "a@b.co"))%nat.
Proof.
  apply (email_pattern_necessary (JsString.lit "a@b.co")). reflexivity.
Defined.

(** On an email field, [required] or not, [validateField] returns false
    exactly when the trimmed value is non-empty and not of the shape the
    pattern accepts. *)
Theorem email_verdict (f : Field) :
  type f = "email"%string ->
  (fst (validateField f) = false <->
   JsString.trim (value f) <> [] /\ ~ email_shaped (JsString.trim (value f))).
Proof.
  intros Ht. rewrite <- ValidatorFacts.blur_shows_error_iff.
  now apply ValidatorFacts.email_rule.
Qed.

Lemma email_verdict_witness :
  fst (validateField (input "email" true (JsString.lit "a@b"))) = false.
Proof.
  apply (proj2 (email_verdict (input "email" true (JsString.lit "a@b")) eq_refl)).
  split; [discriminate|].
  intros H. apply ValidatorFacts.emailRegex_shape in H. discriminate H.
Defined.

(** A field that is neither required nor of type email passes
    [validateField] whatever its value. *)
Theorem optional_field_always_valid (f : Field) :
  type f <> "email"%string ->
  required f = false ->
  fst (validateField f) = true.
Proof.
  intros He Hr. rewrite ValidatorFacts.verdict_is_rule. unfold rule.
  apply String.eqb_neq in He. rewrite He, Hr.
  destruct (String.eqb (type f) "text"); reflexivity.
Qed.

Lemma optional_field_always_valid_witness :
  fst (validateField (input "text" false [])) = true.
Proof.
  apply (optional_field_always_valid (input "text" false []));
    [discriminate | reflexivity].
Defined.

(** A value made of whitespace only counts as empty: [validateField]
    rejects it exactly on a required field whose type is not email. *)
Theorem blank_value_verdict (f : Field) :
  forallb JsString.is_space (value f) = true ->
  fst (validateField f)
  = negb (required f && negb (String.eqb (type f) "email")).
Proof.
  intros Hb. rewrite ValidatorFacts.verdict_is_rule, (trim_blank _ Hb).
  unfold rule.
  destruct (String.eqb (type f) "email"), (String.eqb (type f) "text"),
    (required f); reflexivity.
Qed.

Lemma blank_value_verdict_witness :
  fst (validateField (input "textarea" true (JsString.lit "  ")))
  = false.
Proof.
  apply (blank_value_verdict (input "textarea" true (JsString.lit "  "))).
  reflexivity.
Defined.

(** When [validateField] returns false the field ends up with the error
    class and with the one message of its type, whatever was displayed
    before. *)
Theorem rejected_field_shows_message_of_type (f : Field) :
  fst (validateField f) = false ->
  errorClass (on_blur f) = true
  /\ errorMessage (on_blur f)
     = Some (if String.eqb (type f) "email" then msg_email
             else if String.eqb (type f) "text" then msg_text
             else msg_required).
Proof.
  unfold on_blur. rewrite ValidatorFacts.validateField_rule. cbv zeta.
  unfold rule.
  destruct (String.eqb (type f) "email").
  - destruct (_ && _); simpl; [auto | discriminate].
  - destruct (String.eqb (type f) "text");
      destruct (_ && _); simpl; auto; discriminate.
Qed.

Lemma rejected_field_shows_message_of_type_witness :
  errorClass (on_blur (input "text" true (JsString.lit "a"))) = true
  /\ errorMessage (on_blur (input "text" true (JsString.lit "a")))
     = Some msg_text.
Proof.
  apply (rejected_field_shows_message_of_type
           (input "text" true (JsString.lit "a"))).
  reflexivity.
Defined.

End ValidatorLaws.

(** ** Active-section tracker and navigation *)

Module NavigationLaws.
Import Tracker Navigation.

(** *** What the handler leaves alone *)

Lemma visit_scrollY (p : Z) (s : PageSection) (w : World) :
  scrollY (snd (visitSection p s w)) = scrollY w.
Proof.
  unfold visitSection. destruct (in_range p s); [|reflexivity].
  unfold bind, get.
  destruct (JsString.opt_eqb (currentSection w) (id s)); simpl;
    [reflexivity|].
  unfold updateNavLinks. simpl.
  destruct (toggleLinks (id s) (navLinks w)) as [r ls]. reflexivity.
Qed.

Lemma visit_sections (p : Z) (s : PageSection) (w : World) :
  sections (snd (visitSection p s w)) = sections w.
Proof.
  unfold visitSection. destruct (in_range p s); [|reflexivity].
  unfold bind, get.
  destruct (JsString.opt_eqb (currentSection w) (id s)); simpl;
    [reflexivity|].
  unfold updateNavLinks. simpl.
  destruct (toggleLinks (id s) (navLinks w)) as [r ls]. reflexivity.
Qed.

Lemma background_frame (w : World) :
  scrollY (snd (updateNavbarBackground w)) = scrollY w
  /\ sections (snd (updateNavbarBackground w)) = sections w
  /\ navLinks (snd (updateNavbarBackground w)) = navLinks w.
Proof.
  unfold updateNavbarBackground, bind, get. destruct (nav w); simpl; auto.
Qed.

(** The scroll handler never moves the window, never touches the
    sections and never changes the href of a link (nor the number of
    links), even when it throws. *)
Theorem handleScroll_frame (w : World) :
  scrollY (after handleScroll w) = scrollY w
  /\ sections (after handleScroll w) = sections w
  /\ map href (navLinks (after handleScroll w)) = map href (navLinks w)
  /\ List.length (navLinks (after handleScroll w)) = List.length (navLinks w).
Proof.
  assert (Hy : scrollY (after updateActiveNavigation w) = scrollY w).
  { unfold after, updateActiveNavigation, bind, get.
    apply (TrackerFacts.forEach_preserves _ (fun w' => scrollY w' = scrollY w));
      [|reflexivity].
    intros s w' H. now rewrite visit_scrollY. }
  assert (Hs : sections (after updateActiveNavigation w) = sections w).
  { unfold after, updateActiveNavigation, bind, get.
    apply (TrackerFacts.forEach_preserves _ (fun w' => sections w' = sections w));
      [|reflexivity].
    intros s w' H. now rewrite visit_sections. }
  pose proof (TrackerFacts.updateActiveNavigation_hrefs w) as Hh.
  assert (Hall : scrollY (after handleScroll w) = scrollY w
                 /\ sections (after handleScroll w) = sections w
                 /\ map href (navLinks (after handleScroll w))
                    = map href (navLinks w)).
  { revert Hy Hs Hh. unfold after, handleScroll, bind.
    destruct (updateActiveNavigation w) as [[[]|e] w1]; simpl; [|auto].
    destruct (background_frame w1) as (E1 & E2 & E3).
    rewrite E1, E2, E3. auto. }
  destruct Hall as (H1 & H2 & H3). repeat split; try assumption.
  rewrite <- (length_map href), H3. apply length_map.
Qed.

(** *** When the handler throws *)

(** With an href on every link, the scroll handler returns normally
    exactly when the page has a #nav element. *)
Theorem handleScroll_returns_iff_nav (w : World) :
  links_have_href w ->
  (fst (handleScroll w) = Return tt <-> nav w <> None).
Proof.
  intros Hh. unfold handleScroll, bind.
  pose proof (TrackerFacts.updateActiveNavigation_nav w) as En.
  unfold after in En.
  rewrite TrackerFacts.updateActiveNavigation_selects in * by exact Hh.
  simpl in En. unfold updateNavbarBackground, bind, get. rewrite En.
  destruct (nav w); simpl; split; congruence.
Qed.

Lemma handleScroll_returns_iff_nav_witness :
  fst (handleScroll adjacent_at_50) = Return tt.
Proof.
  apply (proj2 (handleScroll_returns_iff_nav adjacent_at_50
                  ltac:(repeat constructor; discriminate))).
  discriminate.
Defined.

(** A link without href makes [updateNavLinks] throw; the links before
    it have been toggled, the link itself and those after it are as
    they were. *)
Theorem updateNavLinks_stops_at_bare_link
  (activeId : option jsstring) (w : World)
  (before after_ : list NavLink) (bare : NavLink) :
  navLinks w = before ++ bare :: after_ ->
  Forall (fun l => href l <> None) before ->
  href bare = None ->
  updateNavLinks activeId w
  = (Throw TypeError,
     set_navLinks (map (retoggled activeId) before ++ bare :: after_) w).
Proof.
  intros E Hb Hbare. unfold updateNavLinks. rewrite E.
  assert (H : toggleLinks activeId (before ++ bare :: after_)
              = (Throw TypeError,
                 map (retoggled activeId) before ++ bare :: after_)).
  { clear E. induction Hb as [|l before Hl _ IH]; simpl.
    - now rewrite Hbare.
    - unfold retoggled at 1. destruct (href l) as [h|]; [|congruence].
      now rewrite IH. }
  now rewrite H.
Qed.

Lemma updateNavLinks_stops_at_bare_link_witness :
  updateNavLinks (Some (JsString.lit "b"))
    (page 0 None [link "#b" false; {| href := None; active := true |};
                  link "#b" false] [])
  = (Throw TypeError,
     page 0 None [link "#b" true; {| href := None; active := true |};
                  link "#b" false] []).
Proof.
  apply (updateNavLinks_stops_at_bare_link (Some (JsString.lit "b"))
           (page 0 None [link "#b" false; {| href := None; active := true |};
                         link "#b" false] [])
           [link "#b" false] [link "#b" false]
           {| href := None; active := true |}).
  - reflexivity.
  - repeat constructor; discriminate.
  - reflexivity.
Defined.

(** *** Running the handler again *)

Lemma retoggled_twice (a b : option jsstring) (l : NavLink) :
  retoggled a (retoggled b l) = retoggled a l.
Proof. unfold retoggled. simpl. destruct (href l); reflexivity. Qed.

Lemma retoggled_map_twice (a b : option jsstring) (links : list NavLink) :
  map (retoggled a) (map (retoggled b) links) = map (retoggled a) links.
Proof.
  rewrite map_map. apply map_ext. intros l. apply retoggled_twice.
Qed.

Lemma select_shape (sid : option jsstring) (w : World) :
  select sid w = w
  \/ select sid w
     = set_navLinks (map (retoggled sid) (navLinks w))
         (set_currentSection sid w).
Proof.
  unfold select. destruct (JsString.opt_eqb (currentSection w) sid); auto.
Qed.

(** Visiting a list of sections leaves the world alone or leaves every
    link toggled for the section that ends up current. *)
Lemma select_all_shape (ms : list PageSection) :
  forall w,
    select_all ms w = w
    \/ select_all ms w
       = set_navLinks
           (map (retoggled (currentSection (select_all ms w))) (navLinks w))
           (set_currentSection (currentSection (select_all ms w)) w).
Proof.
  induction ms as [|s ms IH]; intros w; [now left|].
  change (select_all (s :: ms) w) with (select_all ms (select (id s) w)).
  destruct (IH (select (id s) w)) as [E | E];
    destruct (select_shape (id s) w) as [E1 | E1].
  - left. now rewrite E, E1.
  - right. rewrite E, TrackerFacts.select_current. exact E1.
  - rewrite E1 in *. now right.
  - right.
    remember (currentSection (select_all ms (select (id s) w))) as c.
    rewrite E, E1. unfold set_navLinks, set_currentSection. simpl.
    now rewrite retoggled_map_twice.
Qed.

Lemma select_all_again (ms : list PageSection) (w : World) :
  select_all ms (select_all ms w) = select_all ms w.
Proof.
  destruct ms as [|s0 ms0] eqn:Ems; [reflexivity|]. rewrite <- Ems.
  destruct (@exists_last _ ms) as (ms' & s & E); [congruence|].
  clear Ems. subst ms.
  destruct (select_all_shape (ms' ++ [s]) w) as [E1 | E1].
  - now rewrite !E1.
  - destruct (select_all_shape (ms' ++ [s]) (select_all (ms' ++ [s]) w))
      as [E2 | E2]; [exact E2|].
    rewrite E2. rewrite !TrackerFacts.select_all_last.
    rewrite TrackerFacts.select_all_last in E1.
    rewrite E1. unfold set_navLinks, set_currentSection. simpl.
    now rewrite retoggled_map_twice.
Qed.

Lemma select_set_nav (sid : option jsstring) (n : option string) (w : World) :
  select sid (set_nav n w) = set_nav n (select sid w).
Proof.
  unfold select. simpl.
  destruct (JsString.opt_eqb (currentSection w) sid); reflexivity.
Qed.

Lemma select_all_set_nav (ms : list PageSection) (n : option string) :
  forall w, select_all ms (set_nav n w) = set_nav n (select_all ms w).
Proof.
  induction ms as [|s ms IH]; intros w; [reflexivity|].
  change (select_all (s :: ms) (set_nav n w))
    with (select_all ms (select (id s) (set_nav n w))).
  now rewrite select_set_nav, IH.
Qed.

Lemma select_frame (sid : option jsstring) (w : World) :
  scrollY (select sid w) = scrollY w
  /\ sections (select sid w) = sections w
  /\ nav (select sid w) = nav w.
Proof.
  unfold select. destruct (JsString.opt_eqb (currentSection w) sid);
    simpl; auto.
Qed.

Lemma select_all_frame (ms : list PageSection) :
  forall w,
    scrollY (select_all ms w) = scrollY w
    /\ sections (select_all ms w) = sections w
    /\ nav (select_all ms w) = nav w.
Proof.
  induction ms as [|s ms IH]; intros w; [simpl; auto|].
  change (select_all (s :: ms) w) with (select_all ms (select (id s) w)).
  destruct (IH (select (id s) w)) as (E1 & E2 & E3).
  destruct (select_frame (id s) w) as (F1 & F2 & F3).
  rewrite E1, E2, E3. auto.
Qed.

(** The handler, when no link lacks its href. *)
Lemma handleScroll_selects (w : World) :
  links_have_href w ->
  handleScroll w
  = (match nav w with None => Throw TypeError | Some _ => Return tt end,
     set_nav (nav_after_scroll w)
       (select_all (containing (scrollY w + navOffset) w) w)).
Proof.
  intros Hh. unfold handleScroll, bind.
  rewrite TrackerFacts.updateActiveNavigation_selects by exact Hh.
  destruct (select_all_frame (containing (scrollY w + navOffset) w) w)
    as (E1 & E2 & E3).
  unfold updateNavbarBackground, bind, get, nav_after_scroll.
  rewrite E3, E1. destruct (nav w) eqn:En; simpl; [reflexivity|].
  f_equal. rewrite <- E3.
  destruct (select_all (containing (scrollY w + navOffset) w) w).
  reflexivity.
Qed.

(** Running the scroll handler a second time, the window and the layout
    being the same, changes nothing more and ends the same way. *)
Theorem handleScroll_again (w : World) :
  links_have_href w ->
  handleScroll (after handleScroll w) = handleScroll w.
Proof.
  intros Hh. unfold after. rewrite (handleScroll_selects w Hh). simpl.
  set (ms := containing (scrollY w + navOffset) w).
  set (w1 := set_nav (nav_after_scroll w) (select_all ms w)).
  destruct (select_all_frame ms w) as (E1 & E2 & E3).
  assert (Hh1 : links_have_href w1)
    by (unfold links_have_href, w1; simpl;
        now apply TrackerFacts.select_all_have_href).
  rewrite (handleScroll_selects w1 Hh1).
  assert (Ems : containing (scrollY w1 + navOffset) w1 = ms).
  { unfold containing, w1. simpl. rewrite E1, E2. reflexivity. }
  rewrite Ems. unfold w1 at 3. rewrite select_all_set_nav, select_all_again.
  assert (En : nav_after_scroll w1 = nav_after_scroll w).
  { unfold nav_after_scroll at 1. unfold w1. cbn [nav scrollY set_nav].
    rewrite E1. unfold nav_after_scroll. destruct (nav w); reflexivity. }
  rewrite En. f_equal.
  unfold w1. cbn [nav set_nav]. unfold nav_after_scroll.
  destruct (nav w); reflexivity.
Qed.

Lemma handleScroll_again_witness :
  handleScroll (after handleScroll overlapping_at_70)
  = handleScroll overlapping_at_70.
Proof.
  apply (handleScroll_again overlapping_at_70).
  repeat constructor; discriminate.
Defined.

(** *** The flags and the current section *)

(** Once a section has been selected, in every world the script reaches
    the active flag of each link tells whether the link names the
    current section. *)
Theorem flags_follow_current_section (w : World) :
  reachable w ->
  links_have_href w ->
  currentSection w <> Some [] ->
  links_reflect (currentSection w) w.
Proof.
  intros Hr Hh Hc.
  destruct (TrackerFacts.reachable_coherent w Hr Hh) as [E | H];
    [contradiction | exact H].
Qed.

Lemma flags_follow_current_section_witness :
  links_reflect (currentSection (after handleScroll adjacent_at_50))
    (after handleScroll adjacent_at_50).
Proof.
  apply (flags_follow_current_section (after handleScroll adjacent_at_50)).
  - apply reach_scroll, reach_fresh. reflexivity.
  - repeat constructor; discriminate.
  - discriminate.
Defined.

Lemma filter_none (A : Type) (f : A -> bool) (l : list A) :
  (forall x, In x l -> f x = false) -> filter f l = [].
Proof.
  induction l as [|a l IH]; intros H; [reflexivity|].
  simpl. rewrite (H a (or_introl eq_refl)). apply IH.
  intros x Hx. apply H. now right.
Qed.

Lemma names_once (c : jsstring) (links : list NavLink) :
  NoDup (map fragment links) ->
  (List.length (filter (names c) links) <= 1)%nat.
Proof.
  induction links as [|l links IH]; simpl; intros Hn; [lia|].
  inversion Hn as [|x xs Hnotin Hrest]; subst.
  destruct (names c l) eqn:El; [|now apply IH].
  assert (Hnone : filter (names c) links = []).
  { apply filter_none. intros b Hb.
    destruct (names c b) eqn:Eb; [|reflexivity].
    exfalso. apply Hnotin. apply in_map_iff. exists b.
    split; [|exact Hb].
    unfold names in El, Eb.
    apply JsStringFacts.opt_eqb_eq in El, Eb. congruence. }
  simpl. rewrite Hnone. simpl. lia.
Qed.

(** With no two links naming the same fragment, at most one link is
    active in every world the script reaches, once a section has been
    selected. *)
Theorem at_most_one_active (w : World) :
  reachable w ->
  links_have_href w ->
  distinct_fragments w ->
  currentSection w <> Some [] ->
  (List.length (filter active (navLinks w)) <= 1)%nat.
Proof.
  intros Hr Hh Hd Hc.
  destruct (TrackerFacts.reachable_coherent w Hr Hh) as [E0 | Hf];
    [contradiction|].
  unfold links_reflect in Hf.
  destruct (currentSection w) as [c|].
  - rewrite (TrackerFacts.reflect_filter c (navLinks w) Hf).
    now apply names_once.
  - assert (E : filter active (navLinks w) = []).
    { clear -Hf. induction Hf as [|l links (h & _ & Ea) _ IH];
        [reflexivity|].
      simpl. rewrite Ea. simpl. exact IH. }
    rewrite E. simpl. lia.
Qed.

Lemma at_most_one_active_witness :
  (List.length (filter active (navLinks (after handleScroll adjacent_at_50)))
   <= 1)%nat.
Proof.
  apply (at_most_one_active (after handleScroll adjacent_at_50)).
  - apply reach_scroll, reach_fresh. reflexivity.
  - repeat constructor; discriminate.
  - repeat constructor; simpl; intuition discriminate.
  - discriminate.
Defined.

(** *** Stacked sections *)

Lemma stacked_containing (secs : list PageSection) :
  stacked secs ->
  forall (p : Z) (s : PageSection),
    In s secs -> in_range p s = true ->
    filter (in_range p) secs = [s].
Proof.
  induction secs as [|s0 secs IH]; intros Hst p s Hin Hr; [destruct Hin|].
  destruct Hst as [Hbelow Hst]. simpl.
  assert (Hlater : in_range p s0 = true ->
                   forall s', In s' secs -> in_range p s' = false).
  { intros H0 s' Hs'. rewrite Forall_forall in Hbelow.
    specialize (Hbelow s' Hs'). unfold in_range in *.
    apply andb_true_iff in H0 as [_ H0]. apply Z.ltb_lt in H0.
    apply andb_false_iff. left. apply Z.leb_gt. lia. }
  destruct (in_range p s0) eqn:E0.
  - destruct Hin as [<- | Hin].
    + f_equal. apply filter_none. exact (Hlater eq_refl).
    + rewrite (Hlater eq_refl s Hin) in Hr. discriminate.
  - destruct Hin as [<- | Hin]; [congruence|]. now apply IH.
Qed.

(** When the sections are stacked one below the other, at most one of
    them contains any given position. *)
Theorem stacked_at_most_one_containing (w : World) (p : Z) :
  stacked (sections w) ->
  (List.length (containing p w) <= 1)%nat.
Proof.
  intros Hst. unfold containing.
  destruct (filter (in_range p) (sections w)) as [|s rest] eqn:E;
    [simpl; lia|].
  assert (Hs : In s (filter (in_range p) (sections w)))
    by (rewrite E; now left).
  apply filter_In in Hs as [Hin Hr].
  rewrite (stacked_containing (sections w) Hst p s Hin Hr) in E.
  injection E as <-. simpl. lia.
Qed.

Lemma stacked_at_most_one_containing_witness :
  (List.length (containing 130 adjacent_at_50) <= 1)%nat.
Proof.
  apply (stacked_at_most_one_containing adjacent_at_50 130).
  simpl. repeat constructor; simpl; lia.
Defined.

(** *** Clicking a link, then the scroll event *)



End NavigationLaws.

(** ** Rate limiters *)

Module TimersLaws.
Import Timers CallPatterns.

Section Laws.

Variable Args : Type.
Variable delay : Z.

Local Open Scope Z_scope.

(** *** throttle *)

Lemma throttle_loop_slow (calls : list (Z * Args)) :
  forall last : Z,
    slow delay last calls ->
    throttle_loop delay calls {| t_timeoutId := None; lastExecTime := last |}
    = calls.
Proof.
  induction calls as [|[t a] rest IH]; intros last Hs; [reflexivity|].
  destruct Hs as [Ht Hs].
  rewrite TimersFacts.throttle_loop_cons.
  unfold throttle_turn, turn, advance. cbn [t_timeoutId].
  rewrite TimersFacts.throttled_immediate by (cbn; lia).
  cbn [fst snd app t_timeoutId]. f_equal. now apply IH.
Qed.

Lemma throttle_turn_count (st : throttle_state Args) (t : Z) (a : Args) :
  (List.length (snd (throttle_turn delay t a st))
   + pending_count (fst (throttle_turn delay t a st))
   <= 1 + pending_count st)%nat.
Proof.
  unfold throttle_turn, turn, advance, pending_count.
  destruct st as [[tm|] lastT]; cbn [t_timeoutId].
  - destruct (due tm <=? t);
      unfold throttle_timeout, throttled, setTimeout; cbn [t_timeoutId lastExecTime];
      match goal with |- context [?x <? ?y] => destruct (x <? y) end;
      cbn; lia.
  - unfold throttled, setTimeout. cbn [t_timeoutId lastExecTime].
    destruct (delay <? t - lastT); cbn; lia.
Qed.

Lemma throttle_loop_count (calls : list (Z * Args)) :
  forall st : throttle_state Args,
    (List.length (throttle_loop delay calls st)
     <= List.length calls + pending_count st)%nat.
Proof.
  induction calls as [|[t a] rest IH]; intros st.
  - unfold throttle_loop, run, drain, pending_count, throttle_timeout.
    destruct (t_timeoutId st); cbn; lia.
  - rewrite TimersFacts.throttle_loop_cons, length_app.
    pose proof (throttle_turn_count st t a).
    pose proof (IH (fst (throttle_turn delay t a st))).
    simpl List.length. lia.
Qed.

(** *** debounce *)

Lemma burst_ends_rapid (calls : list (Z * Args)) :
  forall (t : Z) (a : Args),
    rapid delay (calls ++ [(t, a)]) ->
    burst_ends delay (calls ++ [(t, a)]) = [(t, a)].
Proof.
  induction calls as [|[t0 a0] calls IH]; intros t a Hr; [reflexivity|].
  destruct calls as [|[t1 a1] rest].
  - cbn [app] in *. rewrite TimersFacts.burst_ends_cons2.
    destruct Hr as [Hlt _].
    destruct (Z.leb_spec (t0 + Z.max 0 delay) t); [lia | reflexivity].
  - cbn [app] in *. rewrite TimersFacts.burst_ends_cons2.
    destruct Hr as [Hlt Hr].
    destruct (Z.leb_spec (t0 + Z.max 0 delay) t1); [lia|].
    now apply IH.
Qed.

Lemma burst_ends_isolated (calls : list (Z * Args)) :
  isolated delay calls -> burst_ends delay calls = calls.
Proof.
  induction calls as [|[t0 a0] calls IH]; intros Hi; [reflexivity|].
  destruct calls as [|[t1 a1] rest]; [reflexivity|].
  rewrite TimersFacts.burst_ends_cons2. destruct Hi as [Hle Hi].
  destruct (Z.leb_spec (t0 + Z.max 0 delay) t1); [|lia].
  f_equal. now apply IH.
Qed.

Lemma burst_ends_among (calls : list (Z * Args)) :
  (forall c, In c (burst_ends delay calls) -> In c calls)
  /\ (List.length (burst_ends delay calls) <= List.length calls)%nat.
Proof.
  induction calls as [|[t0 a0] calls [IHin IHlen]]; [simpl; auto|].
  destruct calls as [|[t1 a1] rest]; [simpl; auto|].
  rewrite TimersFacts.burst_ends_cons2.
  destruct (t0 + Z.max 0 delay <=? t1).
  - split.
    + intros c [<- | Hc]; [now left | right; now apply IHin].
    + simpl List.length in *. lia.
  - split.
    + intros c Hc. right. now apply IHin.
    + simpl List.length in *. lia.
Qed.

End Laws.

(** Calls that come more than [delay] apart, the first when the clock
    reads more than [delay], all go straight through the throttle: the
    handler runs once per call, at the call and with its arguments. *)
Theorem throttle_passes_slow_calls
  (Args : Type) (delay : Z) (calls : list (Z * Args)) :
  slow delay 0 calls ->
  throttle_run delay calls = calls.
Proof. apply throttle_loop_slow. Qed.

Lemma throttle_passes_slow_calls_witness :
  throttle_run 50 [(1000, 1); (1051, 2); (1200, 3)]%Z
  = [(1000, 1); (1051, 2); (1200, 3)]%Z.
Proof.
  apply (throttle_passes_slow_calls Z 50%Z [(1000, 1); (1051, 2); (1200, 3)]%Z).
  simpl. lia.
Defined.

(** The throttled handler never runs more often than the wrapper is
    called, and it runs at least once when the wrapper is called at
    all. *)
Theorem throttle_runs_bounded
  (Args : Type) (delay : Z) (calls : list (Z * Args)) :
  (List.length (throttle_run delay calls) <= List.length calls)%nat
  /\ (calls <> [] -> throttle_run delay calls <> []).
Proof.
  split.
  - pose proof (throttle_loop_count Args delay calls (throttle_init Args)) as H.
    unfold pending_count in H. simpl in H.
    unfold throttle_run. unfold throttle_loop in H. lia.
  - intros Hne. destruct (@exists_last _ calls Hne) as (pre & [t a] & ->).
    destruct (TimersFacts.throttle_loop_last Args delay pre
                (throttle_init Args) t a
                (TimersFacts.throttle_init_on_schedule Args delay))
      as (earlier & time & E).
    assert (E' : throttle_run delay (pre ++ [(t, a)]) = earlier ++ [(time, a)])
      by exact E.
    rewrite E'. intros H. apply app_eq_nil in H as [_ H]. discriminate.
Qed.

Lemma throttle_runs_bounded_witness :
  throttle_run 50 [(1000, 1); (1005, 2)]%Z <> [].
Proof.
  apply (proj2 (throttle_runs_bounded Z 50%Z [(1000, 1); (1005, 2)]%Z)).
  discriminate.
Defined.

(** A single call runs the handler at once when the clock reads more
    than [delay]; otherwise, [lastExecTime] starting at 0, the call is
    deferred and the handler runs when the clock reads [delay]. *)
Theorem throttle_single_call (Args : Type) (delay T : Z) (a : Args) :
  throttle_run delay [(T, a)]
  = if (delay <? T)%Z then [(T, a)] else [(delay, a)].
Proof.
  unfold throttle_run, run, turn, advance, throttle_init.
  cbn [t_timeoutId].
  destruct (Z.ltb_spec delay T).
  - rewrite TimersFacts.throttled_immediate by (cbn; lia). reflexivity.
  - rewrite TimersFacts.throttled_deferred by (cbn; lia). reflexivity.
Qed.

(** A run of calls each made before the timer of the one before is due
    gives a single run of the debounced handler, one [delay] after the
    last call and with its arguments. *)
Theorem debounce_rapid_calls_run_once
  (Args : Type) (delay t : Z) (a : Args) (calls : list (Z * Args)) :
  rapid delay (calls ++ [(t, a)]) ->
  debounce_run delay (calls ++ [(t, a)]) = [((t + Z.max 0 delay)%Z, a)].
Proof.
  intros Hr. rewrite TimersFacts.debounce_run_bursts.
  now rewrite burst_ends_rapid.
Qed.

Lemma debounce_rapid_calls_run_once_witness :
  debounce_run 250 ([(0, 1); (100, 2)] ++ [(300, 3)])%Z = [(550, 3)]%Z.
Proof.
  apply (debounce_rapid_calls_run_once Z 250%Z 300%Z 3%Z [(0, 1); (100, 2)]%Z).
  simpl. lia.
Defined.

(** Calls each made when the timer of the one before has run are all
    served: the debounced handler runs once per call, one [delay] after
    it. *)
Theorem debounce_isolated_calls_all_run
  (Args : Type) (delay : Z) (calls : list (Z * Args)) :
  isolated delay calls ->
  debounce_run delay calls = map (fire_after delay) calls.
Proof.
  intros Hi. rewrite TimersFacts.debounce_run_bursts.
  now rewrite burst_ends_isolated.
Qed.

Lemma debounce_isolated_calls_all_run_witness :
  debounce_run 250 [(0, 1); (250, 2); (900, 3)]%Z
  = [(250, 1); (500, 2); (1150, 3)]%Z.
Proof.
  apply (debounce_isolated_calls_all_run Z 250%Z [(0, 1); (250, 2); (900, 3)]%Z).
  simpl. lia.
Defined.

(** Every run of the debounced handler is one [delay] after some call
    and carries that call's arguments, and there are never more runs
    than calls. *)
Theorem debounce_runs_come_from_calls
  (Args : Type) (delay : Z) (calls : list (Z * Args)) :
  (forall r, In r (debounce_run delay calls) ->
             exists c, In c calls /\ r = fire_after delay c)
  /\ (List.length (debounce_run delay calls) <= List.length calls)%nat.
Proof.
  rewrite TimersFacts.debounce_run_bursts.
  destruct (burst_ends_among Args delay calls) as [Hin Hlen].
  split.
  - intros r Hr. apply in_map_iff in Hr as (c & <- & Hc).
    exists c. split; [now apply Hin | reflexivity].
  - now rewrite length_map.
Qed.

End TimersLaws.

(** ** Scroll-triggered animations *)

Module AnimationLaws.
Import Animation.

(** After the observer callback an element carries [visible] exactly
    when it carried it before or one of the entries reports it as
    intersecting: the callback reveals and never hides. *)
Theorem observer_reveals_intersecting (entries : list Entry) :
  forall (v : Visible) (x : nat),
    observerCallback entries v x
    = v x || existsb (fun entry => isIntersecting entry
                                   && Nat.eqb (target entry) x) entries.
Proof.
  induction entries as [|entry rest IH]; intros v x; simpl.
  - now rewrite orb_false_r.
  - rewrite IH. destruct (isIntersecting entry); simpl; [|reflexivity].
    unfold addVisible. rewrite (Nat.eqb_sym (target entry) x).
    destruct (Nat.eqb x (target entry)); simpl; [|reflexivity].
    now rewrite orb_true_r.
Qed.

End AnimationLaws.
